(** * drl_algos: the helpers of [drl_algos/utils.py] and the transition store

    Each module embeds one group of functions of the Python source and
    proves what the specification says about it.

    - [SoftUpdate]: [soft_update], the Polyak averaging of the target
      networks, over a store of parameter tensors it updates in place.
    - [SoftUpdateFloat]: the same loop on float32 values.
    - [TensorBatch]: [to_tensor], [_filter_batch] and [to_tensor_batch].
    - [PyDict]: the dict operations the other modules share.
    - [Stats]: [create_stats_ordered_dict].
    - [SafeJson]: [safe_json] and [dict_to_safe_json].
    - [CatDict]: [cat_dict], over a heap of list objects.
    - [TransitionStore]: the replay buffer, which the sources import and do
      not contain; it follows the specification.

    Outside [SoftUpdateFloat] numbers are exact: a float is a rational, or
    a real number where a square root is taken, and rounding is not
    modelled.  In [Stats] and [CatDict] a call that raises gives [None]; in
    [TensorBatch] a call returns or raises, and [None] is the [None] of
    Python. *)

From Stdlib Require Import ZArith QArith Qabs Reals Psatz SpecFloat.
From stdpp Require Import base functions strings pretty list.

Set Warnings "-register-all".

(** ** Polyak averaging: [soft_update] *)

Module SoftUpdate.

#[local] Open Scope Q_scope.

(** A parameter is a mutable tensor object.  It is identified by its address;
    the store gives the current content of its [.data].  The per-entry
    arithmetic of the tensors is the arithmetic on one entry. *)
Abbreviation param := nat (only parsing).
Definition store := param -> Q.

(** [m.parameters()]: the parameters of a network, in registration order. *)
Abbreviation module := (list param) (only parsing).

(** [target_param.data * (1.0 - tau) + source_param.data * tau] *)
Definition new_param (target_data source_data tau : Q) : Q :=
  target_data * (1 - tau) + source_data * tau.

(** [p.data.copy_(v)]: overwrite the content of [p] in place. *)
Definition copy_ (p : param) (v : Q) (st : store) : store := <[p := v]> st.

(** The body of the [for] loop, run over the zipped pairs in order; every
    read sees the writes of the earlier iterations. *)
Fixpoint soft_update_loop (pairs : list (param * param)) (tau : Q)
    (st : store) : store :=
  match pairs with
  | [] => st
  | (target_param, source_param) :: rest =>
      let new := new_param (st target_param) (st source_param) tau in
      soft_update_loop rest tau (copy_ target_param new st)
  end.

(** [soft_update(source, target, tau)]; [zip] stops at the shorter list. *)
Definition soft_update (source target : module) (tau : Q) (st : store) : store :=
  soft_update_loop (zip target source) tau st.

(** [[p.data for p in m.parameters()]] *)
Definition data (m : module) (st : store) : list Q := st <$> m.

(** Two networks built one after the other from the given parameter values,
    as [qf1] and [target_qf1] are in [example.py]: the source owns the first
    addresses, the target the next ones. *)
Record networks := Networks { mem : store; source : module; target : module }.

Definition build (ss ts : list Q) : networks :=
  {| mem := fun p => nth p (ss ++ ts) 0;
     source := seq 0 (length ss);
     target := seq (length ss) (length ts) |}.

(** The target's data after one call on freshly built networks. *)
Definition updated (ss ts : list Q) (tau : Q) : list Q :=
  let n := build ss ts in
  data (target n) (soft_update (source n) (target n) tau (mem n)).

(** The rule as the specification writes it. *)
Definition polyak (tau old_target src : Q) : Q :=
  (1 - tau) * old_target + tau * src.

(** The claim as the specification states it: whatever the two networks
    are, no parameter of [source] changes. *)
Definition source_untouched : Prop :=
  forall (st : store) (source target : module) (tau : Q) (p : param),
    p ∈ source -> soft_update source target tau st p == st p.

(** *** The loop, one pair at a time *)

Lemma copy_same p v st : copy_ p v st p = v.
Proof. unfold copy_. apply fn_lookup_insert. Qed.

Lemma copy_other p q v st : p <> q -> copy_ p v st q = st q.
Proof. intros H. unfold copy_. by apply fn_lookup_insert_ne. Qed.

(** Only the first components of the pairs are written. *)
Lemma loop_frame pairs tau st p :
  p ∉ pairs.*1 -> soft_update_loop pairs tau st p = st p.
Proof.
  revert st. induction pairs as [|[tp sp] rest IH]; intros st Hp; [done|].
  cbn in Hp. apply not_elem_of_cons in Hp as [Hne Hrest].
  cbn. rewrite IH by done. by apply copy_other.
Qed.

Lemma zip_fst_subseteq (target source : module) p :
  p ∈ (zip target source).*1 -> p ∈ target.
Proof.
  revert source. induction target as [|t target IH]; intros [|s source]; cbn;
    try (by intros ?%elem_of_nil).
  rewrite !elem_of_cons. intros [->|H]; [by left|right; eauto].
Qed.

(** When the written parameters are pairwise distinct and none of them is
    read as a source, each pair is updated from the contents before the
    call. *)
Lemma loop_lookup pairs tau st i tp sp :
  NoDup pairs.*1 ->
  (forall q, q ∈ pairs.*2 -> q ∉ pairs.*1) ->
  pairs !! i = Some (tp, sp) ->
  soft_update_loop pairs tau st tp = new_param (st tp) (st sp) tau.
Proof.
  revert st i. induction pairs as [|[tp' sp'] rest IH]; intros st i Hnd Hsep Hi;
    [done|].
  cbn in Hnd. apply NoDup_cons in Hnd as [Hfresh Hnd].
  destruct i as [|i]; cbn in Hi.
  - injection Hi as -> ->. cbn. rewrite loop_frame by done. apply copy_same.
  - cbn. erewrite IH; [| done | | done].
    + assert (tp ∈ rest.*1) as Htp.
      { apply list_elem_of_lookup_2 in Hi.
        apply (list_elem_of_fmap_2 fst) in Hi. done. }
      assert (sp ∈ rest.*2) as Hsp.
      { apply list_elem_of_lookup_2 in Hi.
        apply (list_elem_of_fmap_2 snd) in Hi. done. }
      rewrite !copy_other; [done| |].
      * intros ->. apply (Hsep sp); cbn; [by right | by left].
      * by intros ->.
    + intros q Hq Hq'. apply (Hsep q); cbn; by right.
Qed.

Lemma zip_fst_take (target source : module) :
  (zip target source).*1 = take (length source) target.
Proof.
  revert source. induction target as [|t target IH]; intros [|s source]; cbn;
    [done..|]. by rewrite IH.
Qed.

Lemma zip_snd_elem (target source : module) q :
  q ∈ (zip target source).*2 -> q ∈ source.
Proof.
  revert source. induction target as [|t target IH]; intros [|s source]; cbn;
    try (by intros ?%elem_of_nil).
  rewrite !elem_of_cons. intros [->|H]; [by left|right; eauto].
Qed.

Lemma NoDup_take (l : module) n : NoDup l -> NoDup (take n l).
Proof.
  intros H. rewrite <- (take_drop n l) in H.
  by apply NoDup_app in H as (? & _ & _).
Qed.

(** *** [soft_update] on two networks *)

(** Nothing outside the target is written. *)
Lemma soft_update_outside source target tau st p :
  p ∉ target -> soft_update source target tau st p = st p.
Proof.
  intros Hp. unfold soft_update. apply loop_frame.
  intros Hin. apply Hp. by apply zip_fst_subseteq in Hin.
Qed.

(** Target parameters without a partner in [source] are not written. *)
Lemma soft_update_beyond (source target : module) tau st i tp :
  NoDup target -> target !! i = Some tp -> (length source <= i)%nat ->
  soft_update source target tau st tp = st tp.
Proof.
  intros Hnd Hi Hlen. unfold soft_update. apply loop_frame.
  rewrite zip_fst_take. intros (j & Hj & Hlt)%elem_of_take.
  assert (i = j) by (eapply NoDup_lookup; eauto). lia.
Qed.

(** Two networks that share no parameter tensor: each paired target
    parameter is blended with its source parameter. *)
Lemma soft_update_lookup source target tau st i tp sp :
  NoDup target -> (forall q, q ∈ source -> q ∉ target) ->
  target !! i = Some tp -> source !! i = Some sp ->
  soft_update source target tau st tp = new_param (st tp) (st sp) tau.
Proof.
  intros Hnd Hsep Ht Hs. unfold soft_update. apply (loop_lookup _ _ _ i).
  - rewrite zip_fst_take. by apply NoDup_take.
  - intros q Hq Hq'. apply zip_snd_elem in Hq. apply zip_fst_subseteq in Hq'.
    by apply (Hsep q).
  - by rewrite lookup_zip_with, Ht, Hs.
Qed.

(** *** Freshly built networks *)

Lemma build_separate ss ts :
  NoDup (target (build ss ts)) /\
  forall q, q ∈ source (build ss ts) -> q ∉ target (build ss ts).
Proof.
  cbn. split; [apply NoDup_seq|].
  intros q Hs Ht. apply elem_of_seq in Hs, Ht. lia.
Qed.

Lemma build_mem_source ss ts i s :
  ss !! i = Some s -> mem (build ss ts) i = s.
Proof.
  intros H. cbn. apply nth_lookup_Some. rewrite lookup_app_l; [done|].
  by apply lookup_lt_Some in H.
Qed.

Lemma build_mem_target ss ts i t :
  ts !! i = Some t -> mem (build ss ts) (length ss + i)%nat = t.
Proof.
  intros H. cbn. apply nth_lookup_Some. rewrite lookup_app_r by lia.
  by replace (length ss + i - length ss)%nat with i by lia.
Qed.

Lemma build_data ss ts :
  data (source (build ss ts)) (mem (build ss ts)) = ss /\
  data (target (build ss ts)) (mem (build ss ts)) = ts.
Proof.
  split; apply list_eq; intros i; unfold data; rewrite list_lookup_fmap.
  - destruct (ss !! i) as [s|] eqn:E.
    + cbn [source build]. rewrite lookup_seq_lt by (by apply lookup_lt_Some in E).
      cbn [fmap option_fmap option_map]. f_equal. by apply build_mem_source.
    + cbn [source build]. rewrite lookup_seq_ge; [done|]. by apply lookup_ge_None.
  - destruct (ts !! i) as [t|] eqn:E.
    + cbn [target build]. rewrite lookup_seq_lt by (by apply lookup_lt_Some in E).
      cbn [fmap option_fmap option_map]. f_equal. by apply build_mem_target.
    + cbn [target build]. rewrite lookup_seq_ge; [done|]. by apply lookup_ge_None.
Qed.

(** Every entry of the updated target, paired or not. *)
Lemma updated_lookup ss ts tau i t :
  ts !! i = Some t ->
  updated ss ts tau !! i =
    Some (match ss !! i with Some s => new_param t s tau | None => t end).
Proof.
  intros Ht. pose proof (lookup_lt_Some _ _ _ Ht) as Hlt.
  destruct (build_separate ss ts) as [Hnd Hsep].
  assert (target (build ss ts) !! i = Some (length ss + i)%nat) as Hti
    by (cbn; by apply lookup_seq_lt).
  unfold updated, data. rewrite list_lookup_fmap, Hti.
  cbn [fmap option_fmap option_map]. f_equal.
  destruct (ss !! i) as [s|] eqn:Hs.
  - assert (source (build ss ts) !! i = Some i) as Hsi.
    { cbn. rewrite lookup_seq_lt; [done|]. by apply lookup_lt_Some in Hs. }
    rewrite (soft_update_lookup _ _ _ _ i _ i) by done.
    by rewrite (build_mem_target _ _ _ _ Ht), (build_mem_source _ _ _ _ Hs).
  - rewrite (soft_update_beyond _ _ _ _ i) ; [by apply build_mem_target|done..|].
    cbn. rewrite length_seq. by apply lookup_ge_None.
Qed.

Lemma updated_length ss ts tau : length (updated ss ts tau) = length ts.
Proof. unfold updated, data. cbn. by rewrite length_fmap, length_seq. Qed.

Lemma new_param_polyak t s tau : new_param t s tau == polyak tau t s.
Proof. unfold new_param, polyak. ring. Qed.

(** On any store, for two networks that share no parameter tensor and have
    as many parameters: the target's data after the call, from the data of
    both before it. *)
Lemma soft_update_data (source target : module) tau st :
  NoDup target -> (forall q, q ∈ source -> q ∉ target) ->
  length source = length target ->
  Forall2 Qeq (data target (soft_update source target tau st))
    (zip_with (polyak tau) (data target st) (data source st)).
Proof.
  intros Hnd Hsep Hlen. unfold data. apply Forall2_same_length_lookup_2.
  - rewrite length_zip_with, !length_fmap. lia.
  - intros i r v Hr Hv.
    apply lookup_zip_with_Some in Hv as (t & s & -> & Ht & Hs).
    rewrite list_lookup_fmap in Hr, Ht, Hs.
    destruct (target !! i) as [tp|] eqn:Htp; [|done].
    destruct (source !! i) as [sp|] eqn:Hsp; [|done].
    cbn in Hr, Ht, Hs. injection Hr as <-. injection Ht as <-. injection Hs as <-.
    rewrite (soft_update_lookup _ _ _ _ i tp sp) by done.
    apply new_param_polyak.
Qed.

(** *** The specification's statements *)

(** C1. For every pair of parameter sequences of equal length and every tau,
    after [soft_update(source, target, tau)] each target parameter equals
    [(1 - tau) * old_target + tau * source]; with tau = 0.1, a target
    parameter 10.0 and a source parameter 0.0, one call yields 9.0. *)
Theorem soft_update_polyak :
  (forall ss ts tau, length ss = length ts ->
     Forall2 Qeq (updated ss ts tau) (zip_with (polyak tau) ts ss)) /\
  Forall2 Qeq (updated [0] [10] (1 # 10)) [9].
Proof.
  split.
  - intros ss ts tau Hlen. apply Forall2_same_length_lookup_2.
    + rewrite updated_length, length_zip_with. lia.
    + intros i r v Hr Hv.
      apply lookup_zip_with_Some in Hv as (t & s & -> & Ht & Hs).
      rewrite (updated_lookup _ _ _ _ _ Ht), Hs in Hr. injection Hr as <-.
      apply new_param_polyak.
  - constructor; [|constructor]. reflexivity.
Qed.

Lemma soft_update_polyak_witness :
  Forall2 Qeq (updated [1; 2] [3; 4] (1 # 4))
    (zip_with (polyak (1 # 4)) [3; 4] [1; 2]).
Proof. apply (proj1 soft_update_polyak [1; 2] [3; 4] (1 # 4)). reflexivity. Defined.

(** A network and one of its own layers as target: the layer's parameter is
    a parameter of the source, and it is rewritten. *)
Lemma soft_update_shared_parameter : ~ source_untouched.
Proof.
  intros H.
  specialize (H (fun p => match p with O => 1 | S _ => 0 end)
                [0; 1]%nat [1%nat] (1 # 2) 1%nat).
  assert (1%nat ∈ [0; 1]%nat) as Hin by (right; left).
  specialize (H Hin). vm_compute in H. discriminate H.
Qed.

(** C3 (amended). [soft_update] writes only parameters of the target: every
    parameter that is not one of the target's keeps its value, so every
    parameter of a source that shares none with the target is unchanged. *)
Theorem soft_update_frame (source target : module) tau st :
  (forall p, p ∉ target -> soft_update source target tau st p = st p) /\
  ((forall p, p ∈ source -> p ∉ target) ->
   data source (soft_update source target tau st) = data source st).
Proof.
  split.
  - intros p Hp. by apply soft_update_outside.
  - intros Hsep. unfold data. apply list_fmap_ext.
    intros i p Hi. apply soft_update_outside, Hsep.
    by apply list_elem_of_lookup_2 in Hi.
Qed.

Lemma soft_update_frame_witness :
  data [0%nat] (soft_update [0%nat] [1%nat] (1 # 2) (mem (build [3] [5]))) = [3].
Proof.
  apply (proj2 (soft_update_frame [0%nat] [1%nat] (1 # 2) (mem (build [3] [5])))).
  intros p Hp Hp'. apply list_elem_of_singleton in Hp, Hp'. lia.
Defined.

End SoftUpdate.

(** ** [soft_update] on float32 values

    The parameters of the networks are float32 tensors.  This module runs
    the loop of [soft_update] on IEEE 754 values, with their rounding,
    infinities and NaN, as [SpecFloat] defines them. *)

Module SoftUpdateFloat.

(** A float: 24 bits of precision for a float32, 53 for a Python float. *)
Abbreviation float := spec_float (only parsing).

Definition mul32 : float -> float -> float := SFmul 24 128.
Definition add32 : float -> float -> float := SFadd 24 128.
Definition sub64 : float -> float -> float := SFsub 53 1024.

(** The Python floats [1.0], [0.5], [0.1] and [0.01]. *)
Definition one64 : float := S754_finite false 4503599627370496 (-52).
Definition half64 : float := S754_finite false 4503599627370496 (-53).
Definition tenth64 : float := S754_finite false 7205759403792794 (-56).
Definition hundredth64 : float := S754_finite false 5764607523034235 (-59).

(** The float32 values 1 and its successor, 0.7 and its successor, 9
    and 10. *)
Definition one32 : float := S754_finite false 8388608 (-23).
Definition next32 : float := S754_finite false 8388609 (-23).
Definition seven_tenths32 : float := S754_finite false 11744051 (-24).
Definition seven_tenths_next32 : float := S754_finite false 11744052 (-24).
Definition nine32 : float := S754_finite false 9437184 (-20).
Definition ten32 : float := S754_finite false 10485760 (-20).

(** The float32 that torch makes of a Python number which an operator gets
    together with a float32 tensor: the nearest one. *)
Definition to32 (x : float) : float :=
  match x with
  | S754_finite s m e => binary_round 24 128 s m e
  | _ => x
  end.

(** The content of the [.data] of each parameter, one entry standing for
    the tensor. *)
Definition store := nat -> float.

(** [target_param.data * (1.0 - tau) + source_param.data * tau]; Python
    computes [1.0 - tau], torch the products and the sum. *)
Definition new_param (target_data source_data tau : float) : float :=
  add32 (mul32 target_data (to32 (sub64 one64 tau)))
        (mul32 source_data (to32 tau)).

Definition copy_ (p : nat) (v : float) (st : store) : store := <[p := v]> st.

Fixpoint soft_update_loop (pairs : list (nat * nat)) (tau : float)
    (st : store) : store :=
  match pairs with
  | [] => st
  | (target_param, source_param) :: rest =>
      let new := new_param (st target_param) (st source_param) tau in
      soft_update_loop rest tau (copy_ target_param new st)
  end.

(** [soft_update(source, target, tau)] *)
Definition soft_update (source target : list nat) (tau : float) (st : store)
    : store :=
  soft_update_loop (zip target source) tau st.

(** A value that a float32 tensor can hold. *)
Definition valid (x : float) : Prop := valid_binary 24 128 x = true.

Definition finite (x : float) : Prop :=
  match x with
  | S754_zero _ | S754_finite _ _ _ => True
  | S754_infinity _ | S754_nan => False
  end.

(** The same value: the two zeros are one value, and NaN is NaN. *)
Definition same (x y : float) : Prop :=
  match x, y with
  | S754_zero _, S754_zero _ => True
  | _, _ => x = y
  end.

(** The first part of the claim as stated: with tau = 0 no target parameter
    changes. *)
Definition tau_zero_claim : Prop :=
  forall (st : store) (source target : list nat) (p : nat),
    (forall q, valid (st q)) ->
    same (soft_update source target (S754_zero false) st p) (st p).

(** *** The arithmetic at tau = 0 and tau = 1 *)

Lemma mul32_one x : valid x -> mul32 x one32 = x.
Proof.
  destruct x as [s|s| |sx mx ex]; intros H; try (by destruct s); [done|].
  unfold valid in H. cbn [valid_binary] in H. unfold bounded in H.
  apply andb_prop in H as [Hc Hb].
  unfold canonical_mantissa in Hc. apply Z.eqb_eq in Hc.
  unfold mul32, SFmul, one32. rewrite Pos.mul_comm.
  assert (Z.pos (digits2_pos (8388608 * mx)) = Z.pos (digits2_pos mx) + 23)%Z as Hd.
  { cbv [Pos.mul digits2_pos]. rewrite !Pos2Z.inj_succ. lia. }
  assert (fexp 24 128 (Zdigits2 (Z.pos (8388608 * mx)) + (ex + -23)) - (ex + -23) = 23)%Z
    as Hn.
  { cbn [Zdigits2]. rewrite Hd.
    replace (Z.pos (digits2_pos mx) + 23 + (ex + -23))%Z
      with (Z.pos (digits2_pos mx) + ex)%Z by lia.
    rewrite Hc. lia. }
  unfold binary_round_aux. unfold shr_fexp at 1. rewrite Hn.
  change (shr (shr_record_of_loc (Z.pos (8388608 * mx)) loc_Exact) (ex + -23)%Z 23%Z)
    with ({| shr_m := Z.pos mx; shr_r := false; shr_s := false |}, (ex + -23 + 23)%Z).
  cbn [shr_m loc_of_shr_record round_nearest_even].
  replace (ex + -23 + 23)%Z with ex by lia.
  unfold shr_fexp. cbn [Zdigits2]. rewrite Hc, Z.sub_diag.
  cbn [shr shr_record_of_loc shr_m]. rewrite Hb. by rewrite xorb_false_r.
Qed.

Lemma mul32_zero x b : finite x -> exists b', mul32 x (S754_zero b) = S754_zero b'.
Proof. destruct x as [s|s| |sx mx ex]; intros H; try done; by eexists. Qed.

Lemma new_param_tau_zero t s :
  valid t -> finite s -> same (new_param t s (S754_zero false)) t.
Proof.
  intros Ht Hs. unfold new_param.
  change (to32 (sub64 one64 (S754_zero false))) with one32.
  change (to32 (S754_zero false)) with (S754_zero false).
  rewrite mul32_one by done. destruct (mul32_zero s false Hs) as [b ->].
  destruct t as [[]|[]| |sx mx ex]; by destruct b.
Qed.

Lemma new_param_tau_one t s :
  finite t -> valid s -> same (new_param t s one64) s.
Proof.
  intros Ht Hs. unfold new_param.
  change (to32 (sub64 one64 one64)) with (S754_zero false).
  change (to32 one64) with one32.
  rewrite (mul32_one s) by done. destruct (mul32_zero t false Ht) as [b ->].
  destruct s as [[]|[]| |sx mx ex]; by destruct b.
Qed.

Lemma same_trans x y z : same x y -> same y z -> same x z.
Proof.
  destruct x as [?|?| |? ? ?], y as [?|?| |? ? ?], z as [?|?| |? ? ?];
    cbn; congruence.
Qed.

Lemma same_valid x y : same x y -> valid y -> valid x.
Proof.
  destruct x as [?|?| |? ? ?], y as [?|?| |? ? ?]; intros Hs Hy; try done;
    by rewrite Hs.
Qed.

Lemma same_finite x y : same x y -> finite y -> finite x.
Proof.
  destruct x as [?|?| |? ? ?], y as [?|?| |? ? ?]; intros Hs Hy; try done;
    by rewrite Hs.
Qed.

Lemma same_refl x : same x x.
Proof. by destruct x. Qed.

(** *** The loop *)

Lemma copy_same_float p v st : copy_ p v st p = v.
Proof. unfold copy_. apply fn_lookup_insert. Qed.

Lemma copy_other_float p q v st : p <> q -> copy_ p v st q = st q.
Proof. intros H. unfold copy_. by apply fn_lookup_insert_ne. Qed.

Lemma loop_frame_float pairs tau st p :
  p ∉ pairs.*1 -> soft_update_loop pairs tau st p = st p.
Proof.
  revert st. induction pairs as [|[tp sp] rest IH]; intros st Hp; [done|].
  cbn in Hp. apply not_elem_of_cons in Hp as [Hne Hrest].
  cbn. rewrite IH by done. by apply copy_other_float.
Qed.

Lemma loop_lookup_float pairs tau st i tp sp :
  NoDup pairs.*1 ->
  (forall q, q ∈ pairs.*2 -> q ∉ pairs.*1) ->
  pairs !! i = Some (tp, sp) ->
  soft_update_loop pairs tau st tp = new_param (st tp) (st sp) tau.
Proof.
  revert st i. induction pairs as [|[tp' sp'] rest IH]; intros st i Hnd Hsep Hi;
    [done|].
  cbn in Hnd. apply NoDup_cons in Hnd as [Hfresh Hnd].
  destruct i as [|i]; cbn in Hi.
  - injection Hi as -> ->. cbn. rewrite loop_frame_float by done. apply copy_same_float.
  - cbn. erewrite IH; [| done | | done].
    + assert (tp ∈ rest.*1) as Htp.
      { apply list_elem_of_lookup_2 in Hi.
        apply (list_elem_of_fmap_2 fst) in Hi. done. }
      assert (sp ∈ rest.*2) as Hsp.
      { apply list_elem_of_lookup_2 in Hi.
        apply (list_elem_of_fmap_2 snd) in Hi. done. }
      rewrite !copy_other_float; [done| |].
      * intros ->. apply (Hsep sp); cbn; [by right | by left].
      * by intros ->.
    + intros q Hq Hq'. apply (Hsep q); cbn; by right.
Qed.

(** With tau = 0 every write puts back the value it has read, whatever the
    pairs are. *)
Lemma loop_tau_zero pairs : forall st : store,
  (forall p, valid (st p)) -> (forall p, p ∈ pairs.*2 -> finite (st p)) ->
  forall p, same (soft_update_loop pairs (S754_zero false) st p) (st p).
Proof.
  induction pairs as [|[tp sp] rest IH]; intros st Hvalid Hfinite p;
    [apply same_refl|].
  cbn [soft_update_loop].
  pose proof (new_param_tau_zero (st tp) (st sp) (Hvalid tp)
                (Hfinite sp ltac:(left))) as Hnew.
  set (st1 := copy_ tp (new_param (st tp) (st sp) (S754_zero false)) st).
  assert (forall q, same (st1 q) (st q)) as Hst1.
  { intros q. subst st1. destruct (decide (tp = q)) as [<-|Hne].
    - by rewrite copy_same_float.
    - rewrite copy_other_float by done. apply same_refl. }
  apply (same_trans _ (st1 p)); [|apply Hst1].
  apply IH.
  - intros q. by apply (same_valid _ (st q)).
  - intros q Hq. apply (same_finite _ (st q)); [done|]. apply Hfinite. by right.
Qed.

(** *** The specification's statement *)

(** With tau = 0 and an infinite source parameter the target parameter
    becomes NaN: infinity times zero is NaN. *)
Lemma soft_update_infinite_source : ~ tau_zero_claim.
Proof.
  intros H.
  specialize (H (fun p => match p with O => S754_infinity false | S _ => one32 end)
                [0%nat] [1%nat] 1%nat).
  assert (forall q, valid (match q with O => S754_infinity false | S _ => one32 end))
    as Hvalid by (by intros []).
  specialize (H Hvalid). vm_compute in H. discriminate H.
Qed.

(** C2 (amended). With tau = 0 and finite source parameters every
    parameter is left with its value; with tau = 1 every target parameter
    that is finite gets the value of its source parameter (the networks
    sharing no parameter).  For 0 < tau < 1 the new value is the rounded one:
    a target parameter 1 with the next float32 as its source stays at 1
    under tau = 0.5, and a target parameter 0.7 that equals its source
    moves to the next float32 under tau = 0.01. *)
Theorem soft_update_tau_cases (source target : list nat) (st : store) :
  (forall p, valid (st p)) ->
  ((forall p, p ∈ source -> finite (st p)) ->
   forall p, same (soft_update source target (S754_zero false) st p) (st p)) /\
  (NoDup target -> (forall q, q ∈ source -> q ∉ target) ->
   forall i tp sp, target !! i = Some tp -> source !! i = Some sp ->
     finite (st tp) -> same (soft_update source target one64 st tp) (st sp)) /\
  new_param one32 next32 half64 = one32 /\
  new_param seven_tenths32 seven_tenths32 hundredth64 = seven_tenths_next32.
Proof.
  intros Hvalid. split; [|split].
  - intros Hfinite p. unfold soft_update. apply loop_tau_zero; [done|].
    intros q Hq. apply Hfinite. by apply SoftUpdate.zip_snd_elem in Hq.
  - intros Hnd Hsep i tp sp Ht Hs Hfin. unfold soft_update.
    rewrite (loop_lookup_float _ _ _ i tp sp).
    + by apply new_param_tau_one.
    + rewrite SoftUpdate.zip_fst_take. by apply SoftUpdate.NoDup_take.
    + intros q Hq Hq'. apply SoftUpdate.zip_snd_elem in Hq.
      apply SoftUpdate.zip_fst_subseteq in Hq'. by apply (Hsep q).
    + by rewrite lookup_zip_with, Ht, Hs.
  - split; reflexivity.
Qed.

(** The scenario of the specification: tau = 0.1, a target parameter 10.0
    and a source parameter 0.0 give 9.0, in float32 too. *)
Example soft_update_scenario :
  soft_update [0%nat] [1%nat] tenth64
    (fun p => match p with O => S754_zero false | S _ => ten32 end) 1%nat = nine32.
Proof. reflexivity. Qed.

Lemma soft_update_tau_cases_witness :
  same (soft_update [0%nat] [1%nat] (S754_zero false)
          (fun p => match p with O => next32 | S _ => one32 end) 1%nat) one32.
Proof.
  assert (forall p, valid (match p with O => next32 | S _ => one32 end)) as Hvalid
    by (by intros []).
  destruct (soft_update_tau_cases [0%nat] [1%nat]
              (fun p => match p with O => next32 | S _ => one32 end) Hvalid)
    as [Hzero _].
  apply (Hzero ltac:(by intros [] _) 1%nat).
Defined.

End SoftUpdateFloat.

(** ** Batches of arrays: [to_tensor], [_filter_batch], [to_tensor_batch] *)

Module TensorBatch.

#[local] Open Scope Q_scope.

(** The content of a numeric array or tensor, by the kind of its dtype. *)
Inductive numeric :=
  | Bools (bs : list bool)
  | Ints (zs : list Z)
  | Floats (qs : list Q).

(** What [to_tensor] accepts: a numpy array of a numeric dtype, or a torch
    tensor (anything else with a [.float()] method). *)
Inductive array_like :=
  | NdArray (x : numeric)
  | TorchTensor (x : numeric).

(** A value of a batch dict: an array [to_tensor] can convert, or a numpy
    array of dtype object, whose cells hold arbitrary Python objects (the
    metadata maps); the objects are named by numbers. *)
Inductive entry :=
  | Convertible (a : array_like)
  | ObjectArray (objs : list nat).

(** A float tensor, by its content. *)
Abbreviation tensor := (list Q) (only parsing).

Definition bool_to_int (b : bool) : Z := if b then 1%Z else 0%Z.

(** numpy's conversion of a float to [int]: truncation towards zero. *)
Definition truncate (q : Q) : Z := Z.quot (Qnum q) (Zpos (Qden q)).

(** [v.astype(int)] *)
Definition astype_int (x : numeric) : numeric :=
  match x with
  | Bools bs => Ints (bool_to_int <$> bs)
  | Ints zs => Ints zs
  | Floats qs => Ints (truncate <$> qs)
  end.

(** [.float()] *)
Definition float (x : numeric) : tensor :=
  match x with
  | Bools bs => (fun b => inject_Z (bool_to_int b)) <$> bs
  | Ints zs => inject_Z <$> zs
  | Floats qs => qs
  end.

(** What a caller can hand to [to_tensor]: a value as the batches hold
    them, or an object of another kind (a list, a number, [None], ...), named
    by a number; such an object has no [float] method. *)
Inductive argument :=
  | Value (v : entry)
  | NoFloat (obj : nat).

Inductive exception :=
  | TypeError
  | AttributeError.

(** What a call comes to: it returns, or it raises. *)
Inductive outcome (A : Type) :=
  | Returns (a : A)
  | Raises (e : exception).

Arguments Returns {A} a.
Arguments Raises {A} e.

(** [to_tensor(np_array, device)]; [.to(device)] moves the tensor and leaves
    its content as it is.  [torch.from_numpy] refuses an array of dtype
    object, and an object that is no array is asked for its [float]. *)
Definition to_tensor (np_array : argument) : outcome tensor :=
  match np_array with
  | Value (Convertible (NdArray x)) => Returns (float x)   (* torch.from_numpy(np_array).float() *)
  | Value (ObjectArray _) => Raises TypeError
  | Value (Convertible (TorchTensor x)) => Returns (float x)   (* np_array.float() *)
  | NoFloat _ => Raises AttributeError
  end.

(** [v.dtype == np.bool]: [np.bool] names the boolean type (the builtin
    [bool] in the numpy releases of the time, numpy's own since 2.0), which
    numpy compares equal to its boolean dtype and to no other; a torch dtype
    is not equal to it. *)
Definition dtype_is_np_bool (v : entry) : bool :=
  match v with
  | Convertible (NdArray (Bools _)) => true
  | _ => false
  end.

(** [x.dtype != np.dtype('O')], with the array it holds of when it holds. *)
Definition dtype_is_not_object (x : entry) : option array_like :=
  match x with
  | ObjectArray _ => None
  | Convertible a => Some a
  end.

(** [v.astype(int)] on a value of the batch. *)
Definition entry_astype_int (v : entry) : entry :=
  match v with
  | Convertible (NdArray x) => Convertible (NdArray (astype_int x))
  | Convertible (TorchTensor x) => Convertible (TorchTensor x)
  | ObjectArray objs => ObjectArray objs
  end.

(** [_filter_batch(batch)]: the pairs the generator yields, in order. *)
Fixpoint _filter_batch (batch : list (string * entry)) : list (string * entry) :=
  match batch with
  | [] => []
  | (k, v) :: rest =>
      (if dtype_is_np_bool v then (k, entry_astype_int v) else (k, v))
        :: _filter_batch rest
  end.

(** The dict comprehension of [to_tensor_batch]:
    [{k: to_tensor(x, device) for k, x in pairs if x.dtype != np.dtype('O')}] *)
Fixpoint comprehension (pairs : list (string * entry))
    : outcome (list (string * tensor)) :=
  match pairs with
  | [] => Returns []
  | (k, x) :: rest =>
      match dtype_is_not_object x with
      | Some a =>
          match to_tensor (Value (Convertible a)) with
          | Returns t =>
              match comprehension rest with
              | Returns out => Returns ((k, t) :: out)
              | Raises e => Raises e
              end
          | Raises e => Raises e
          end
      | None => comprehension rest
      end
  end.

(** The argument of [to_tensor_batch]: a dict, given by its items in
    insertion order, or something else. *)
Inductive batch_arg :=
  | Dict (items : list (string * entry))
  | NotDict (x : argument).

(** [to_tensor_batch(batch, device)].  [None] is Python's [None]: the [else]
    branch calls [to_tensor] and falls off the end of the function. *)
Definition to_tensor_batch (batch : batch_arg)
    : outcome (option (list (string * tensor))) :=
  match batch with
  | Dict items =>
      match comprehension (_filter_batch items) with
      | Returns out => Returns (Some out)
      | Raises e => Raises e
      end
  | NotDict x =>
      match to_tensor x with
      | Returns _ => Returns None
      | Raises e => Raises e
      end
  end.

(** *** What the specification says of a batch *)

(** The items of a dict whose array is not of dtype object. *)
Definition numeric_items (items : list (string * entry)) : list (string * entry) :=
  List.filter (fun kv => bool_decide (is_Some (dtype_is_not_object kv.2))) items.

(** An array of integers 0 and 1, one per boolean. *)
Definition zero_one (bs : list bool) : list Z := (fun b : bool => if b then 1%Z else 0%Z) <$> bs.

(** What the generator hands on for a value: a boolean array as integers. *)
Definition yielded (v v' : entry) : Prop :=
  match v with
  | Convertible (NdArray (Bools bs)) => v' = Convertible (NdArray (Ints (zero_one bs)))
  | _ => v' = v
  end.

(** What the returned dict holds for a value that is not an object array. *)
Definition converted (v : entry) (t : tensor) : Prop :=
  match v with
  | Convertible (NdArray (Bools bs)) => t = inject_Z <$> zero_one bs
  | Convertible _ => to_tensor (Value v) = Returns t
  | ObjectArray _ => False
  end.

Lemma filter_batch_yields items :
  Forall2 (fun kv kv' => kv'.1 = kv.1 /\ yielded kv.2 kv'.2) items (_filter_batch items).
Proof.
  induction items as [|[k v] rest IH]; cbn; [constructor|].
  constructor; [|exact IH].
  destruct v as [[[bs|zs|qs]|x]|objs]; cbn; split; reflexivity.
Qed.

Lemma comprehension_converts items :
  exists out,
    comprehension (_filter_batch items) = Returns out /\
    Forall2 (fun kv kt => kt.1 = kv.1 /\ converted kv.2 kt.2) (numeric_items items) out.
Proof.
  induction items as [|[k v] rest (out & Hout & IH)]; cbn.
  - exists []. split; [done|constructor].
  - destruct v as [[[bs|zs|qs]|[bs|zs|qs]]|objs]; cbn; rewrite Hout;
      try (eexists; split; [reflexivity|constructor; [|exact IH]];
           split; reflexivity).
    by exists out.
Qed.

(** C4. For every dict-shaped batch, [to_tensor_batch] hands on each boolean
    array as integers 0/1 before the tensor conversion and leaves out the
    entries of dtype object; the returned dict holds, under the same keys and
    in the same order, one float tensor for each remaining entry. *)
Theorem to_tensor_batch_dict items :
  Forall2 (fun kv kv' => kv'.1 = kv.1 /\ yielded kv.2 kv'.2) items (_filter_batch items) /\
  exists out, to_tensor_batch (Dict items) = Returns (Some out) /\
    Forall2 (fun kv kt => kt.1 = kv.1 /\ converted kv.2 kt.2) (numeric_items items) out.
Proof.
  split; [apply filter_batch_yields|].
  destruct (comprehension_converts items) as (out & Hout & Hconv).
  exists out. split; [|exact Hconv]. cbn. by rewrite Hout.
Qed.

(** The claim as stated: [None] for every input that is not a dict. *)
Definition not_dict_claim : Prop :=
  forall x, to_tensor_batch (NotDict x) = Returns None.

(** A list is not a dict: [to_tensor] asks it for its [float] and raises. *)
Lemma to_tensor_batch_of_list : ~ not_dict_claim.
Proof. intros H. specialize (H (NoFloat 0)). discriminate H. Qed.

(** C8 (amended). For every input that is not a dict, [to_tensor_batch]
    returns [None] exactly when the input is a numeric array or a tensor,
    which [to_tensor] converts (the conversion is computed and dropped); on
    every other input it raises, [TypeError] for an array of dtype object
    and [AttributeError] for an object that is no array.  So only a dict
    yields a result. *)
Theorem to_tensor_batch_not_dict :
  (forall x, to_tensor_batch (NotDict x) = Returns None <->
             exists a, x = Value (Convertible a)) /\
  (forall objs, to_tensor_batch (NotDict (Value (ObjectArray objs))) = Raises TypeError) /\
  (forall obj, to_tensor_batch (NotDict (NoFloat obj)) = Raises AttributeError) /\
  (forall batch out, to_tensor_batch batch = Returns (Some out) ->
     exists items, batch = Dict items).
Proof.
  split_and!.
  - intros [[[x|x]|objs]|obj]; cbn; split; try done.
    + intros _. by eexists.
    + intros _. by eexists.
    + by intros [a [=]].
    + by intros [a [=]].
  - done.
  - done.
  - intros [items|x] out H.
    + by exists items.
    + cbn in H. by destruct (to_tensor x).
Qed.

(** A batch as the replay buffer samples it. *)
Example to_tensor_batch_replay :
  to_tensor_batch
    (Dict [("observations", Convertible (NdArray (Floats [1 # 2; 2])));
           ("terminals", Convertible (NdArray (Bools [false; true])));
           ("env_infos", ObjectArray [0; 1]%nat);
           ("rewards", Convertible (NdArray (Ints [3; -1]%Z)))]) =
  Returns (Some [("observations", [1 # 2; 2]); ("terminals", [0; 1]);
                 ("rewards", [3; -1])]).
Proof. reflexivity. Qed.

End TensorBatch.

(** ** Python dicts

    A dict is the list of its items in insertion order; the keys are
    strings. *)

Module PyDict.

Section Items.

Context {V : Type}.

(** [d[key]], [None] standing for [KeyError]. *)
Fixpoint getitem (d : list (string * V)) (key : string) : option V :=
  match d with
  | [] => None
  | (k, v) :: rest => if decide (k = key) then Some v else getitem rest key
  end.

(** [key in d.keys()] *)
Definition contains (d : list (string * V)) (key : string) : bool :=
  bool_decide (is_Some (getitem d key)).

(** [d[key] = value]: an existing key keeps its place, a new key goes last. *)
Fixpoint setitem (d : list (string * V)) (key : string) (value : V)
    : list (string * V) :=
  match d with
  | [] => [(key, value)]
  | (k, v) :: rest =>
      if decide (k = key) then (k, value) :: rest
      else (k, v) :: setitem rest key value
  end.

Lemma getitem_setitem d key value key' :
  getitem (setitem d key value) key' =
    if decide (key = key') then Some value else getitem d key'.
Proof.
  induction d as [|[k v] rest IH]; cbn.
  - by destruct (decide (key = key')).
  - destruct (decide (k = key)) as [->|Hne]; cbn.
    + by destruct (decide (key = key')).
    + rewrite IH. destruct (decide (k = key')) as [->|]; [|done].
      by rewrite decide_False.
Qed.

Lemma getitem_None d key : getitem d key = None <-> key ∉ d.*1.
Proof.
  induction d as [|[k v] rest IH]; cbn.
  - split; [intros _; apply not_elem_of_nil|done].
  - rewrite not_elem_of_cons. destruct (decide (k = key)) as [->|Hne].
    + split; [done|]. by intros [? _].
    + rewrite IH. split; [by intros ?|by intros [_ ?]].
Qed.

Lemma setitem_fresh d key value :
  key ∉ d.*1 -> setitem d key value = d ++ [(key, value)].
Proof.
  induction d as [|[k v] rest IH]; cbn; [done|].
  intros [Hne Hrest]%not_elem_of_cons.
  rewrite decide_False by done. by rewrite IH.
Qed.

End Items.

End PyDict.

(** ** Statistics of a sequence: [create_stats_ordered_dict] *)

Module Stats.

Import PyDict.

(** An [OrderedDict] from names to numbers: its items in insertion order.
    Numbers are real numbers, so that the standard deviation has its square
    root. *)
Abbreviation odict := (list (string * R)) (only parsing).

(** [d.update(other)] *)
Definition update (d other : odict) : odict :=
  foldl (fun acc kv => setitem acc kv.1 kv.2) d other.

(** [OrderedDict(items)] *)
Definition OrderedDict (items : odict) : odict := update [] items.

(** numpy's reductions over all the entries of an array. *)
Definition np_sum (xs : list R) : R := foldr Rplus 0%R xs.

Definition np_mean (xs : list R) : R := (np_sum xs / INR (length xs))%R.

Definition np_std (xs : list R) : R :=
  sqrt (np_mean ((fun x => Rsqr (x - np_mean xs)) <$> xs)).

Definition np_max (xs : list R) : R :=
  match xs with
  | [] => 0%R
  | x :: rest => foldl Rmax x rest
  end.

Definition np_min (xs : list R) : R :=
  match xs with
  | [] => 0%R
  | x :: rest => foldl Rmin x rest
  end.

(** The [data] argument: a number, a tuple, a list, a one-dimensional array,
    or an array of another number of dimensions, given by its shape and its
    entries in order (as many as the product of the shape). *)
Inductive pydata :=
  | Number (x : R)
  | Tuple (items : list pydata)
  | PyList (items : list pydata)
  | NdArray (xs : list R)
  | Shaped (shape : list nat) (xs : list R).

(** A sequence of numbers as a one-dimensional array; [None] when an item is
    not a number. *)
Definition as_scalars (items : list pydata) : option (list R) :=
  mapM (fun d => match d with Number x => Some x | _ => None end) items.

(** One operand of [np.concatenate]: a sequence of numbers or an array, as
    the shape of one of its items and its entries.  A number is refused, and
    so is an array of no dimension (a zero-dimensional array cannot be
    concatenated); sequences nested deeper are not covered and are refused
    as well. *)
Definition operand (d : pydata) : option (list nat * list R) :=
  match d with
  | Number _ => None
  | Tuple items | PyList items => xs ← as_scalars items; Some ([], xs)
  | NdArray xs => Some ([], xs)
  | Shaped [] _ => None
  | Shaped (_ :: item_shape) xs => Some (item_shape, xs)
  end.

(** [np.concatenate(data)]: the entries of the array it returns.  It raises
    on no operand, and on operands whose items differ in shape. *)
Definition np_concatenate (data : list pydata) : option (list R) :=
  operands ← mapM operand data;
  match operands with
  | [] => None
  | (item_shape, _) :: _ =>
      if forallb (fun op : list nat * list R => bool_decide (op.1 = item_shape)) operands
      then Some (concat operands.*2)
      else None
  end.

(** The end of the function: the [OrderedDict] of the statistics.  On no
    entries numpy warns, gives NaN and [np.max] raises; the model stops with
    [None] there. *)
Definition stats (name : string) (xs : list R) (exclude_max_min : bool)
    : option odict :=
  match xs with
  | [] => None
  | _ :: _ =>
      let stats := OrderedDict [(name +:+ " Mean", np_mean xs);
                                (name +:+ " Std", np_std xs)] in
      if negb exclude_max_min then
        let stats := setitem stats (name +:+ " Max") (np_max xs) in
        let stats := setitem stats (name +:+ " Min") (np_min xs) in
        Some stats
      else Some stats
  end.

(** From [if (isinstance(data, np.ndarray) and data.size == 1 ...] on, for
    an array with the entries [xs], of whatever shape. *)
Definition of_array (name : string) (xs : list R)
    (always_show_all_stats exclude_max_min : bool) : option odict :=
  match xs with
  | [x] =>
      if negb always_show_all_stats then Some (OrderedDict [(name, x)])
      else stats name xs exclude_max_min
  | _ => stats name xs exclude_max_min
  end.

(** ["{0}_{1}".format(name, number)] *)
Definition indexed (name : string) (number : nat) : string :=
  name +:+ "_" +:+ pretty number.

(** [create_stats_ordered_dict(name, data, stat_prefix, always_show_all_stats,
    exclude_max_min)]; [None] when the call raises. *)
Fixpoint create_stats_ordered_dict (name : string) (data : pydata)
    (stat_prefix : option string)
    (always_show_all_stats exclude_max_min : bool) {struct data}
    : option odict :=
  let name :=
    match stat_prefix with
    | Some prefix => prefix +:+ name      (* "{}{}".format(stat_prefix, name) *)
    | None => name
    end in
  match data with
  | Number x => Some (OrderedDict [(name, x)])
  | Shaped [] _ => None                  (* len() of an array of no dimension *)
  | Tuple [] | PyList [] | NdArray [] | Shaped (0%nat :: _) _ =>
      Some (OrderedDict [])              (* len(data) == 0 *)
  | Tuple items =>
      (fix loop (number : nat) (items : list pydata) (ordered_dict : odict)
         : option odict :=
         match items with
         | [] => Some ordered_dict
         | d :: rest =>
             match create_stats_ordered_dict (indexed name number) d
                     None true false with
             | Some sub_dict => loop (S number) rest (update ordered_dict sub_dict)
             | None => None
             end
         end) 0%nat items (OrderedDict [])
  | PyList ((Number _ :: _) as items) =>
      (* iter(data[0]) raises TypeError: the list stays a list *)
      xs ← as_scalars items; stats name xs exclude_max_min
  | PyList items =>
      xs ← np_concatenate items;
      of_array name xs always_show_all_stats exclude_max_min
  | NdArray xs | Shaped _ xs =>
      of_array name xs always_show_all_stats exclude_max_min
  end.





(** The four entries, and the two that stay under [exclude_max_min]. *)
Definition mean_std (name : string) (xs : list R) : list (string * R) :=
  [(name +:+ " Mean", np_mean xs); (name +:+ " Std", np_std xs)].

Definition max_min (name : string) (xs : list R) : list (string * R) :=
  [(name +:+ " Max", np_max xs); (name +:+ " Min", np_min xs)].

(** *** The dictionary operations *)

Lemma suffix_ne (name a b : string) : a <> b -> name +:+ a <> name +:+ b.
Proof. intros Hne H. apply Hne. by apply (inj (String.append name)). Qed.

(** A key with another suffix than the keys of the list. *)
Ltac fresh_key :=
  repeat (apply not_elem_of_cons; split; [by apply suffix_ne|]);
  apply not_elem_of_nil.

(** *** numpy's reductions are the mean, deviation, maximum and minimum *)









(** *** The function on sequences of numbers *)

Lemma stats_entries name xs exclude_max_min :
  xs <> [] ->
  stats name xs exclude_max_min =
    Some (if exclude_max_min then mean_std name xs
          else mean_std name xs ++ max_min name xs).
Proof.
  intros H. destruct xs as [|x xs]; [done|]. unfold stats, OrderedDict, update.
  cbn [foldl fst snd setitem].
  rewrite (decide_False (P := _ +:+ " Mean" = _ +:+ " Std"))
    by (by apply suffix_ne).
  destruct exclude_max_min; cbn [negb]; [done|].
  rewrite (setitem_fresh [_; _] (name +:+ " Max"))
    by (cbn [fmap list_fmap fst]; fresh_key).
  rewrite setitem_fresh by (cbn [fmap list_fmap fst app]; fresh_key).
  done.
Qed.


Lemma of_array_all_stats name xs exclude_max_min :
  of_array name xs true exclude_max_min = stats name xs exclude_max_min.
Proof. destruct xs as [|x [|y xs]]; reflexivity. Qed.



(** *** Empty data and numbers *)

(** [len(data)]; [None] when it raises. *)
Definition len (data : pydata) : option nat :=
  match data with
  | Number _ | Shaped [] _ => None
  | Tuple items | PyList items => Some (length items)
  | NdArray xs => Some (length xs)
  | Shaped (n :: _) _ => Some n
  end.

Definition list_or_array (data : pydata) : Prop :=
  match data with
  | PyList _ | NdArray _ | Shaped _ _ => True
  | Number _ | Tuple _ => False
  end.

(** A list or an array without entries: the list [[]], an array of size 0. *)
Definition empty (data : pydata) : Prop :=
  match data with
  | PyList items => items = []
  | NdArray xs => xs = []
  | Shaped shape xs => xs = [] /\ foldr Nat.mul 1%nat shape = 0%nat
  | Number _ | Tuple _ => False
  end.

Lemma stats_not_empty name xs exclude_max_min : stats name xs exclude_max_min <> Some [].
Proof.
  destruct xs as [|x xs]; [done|]. rewrite stats_entries by done.
  by destruct exclude_max_min.
Qed.

Lemma of_array_not_empty name xs always_show_all_stats exclude_max_min :
  of_array name xs always_show_all_stats exclude_max_min <> Some [].
Proof.
  destruct xs as [|x [|y xs]]; cbn [of_array];
    try apply stats_not_empty.
  destruct always_show_all_stats; cbn [negb]; [apply stats_not_empty|done].
Qed.

(** An array of shape (3, 0) has no entry, and [len] 3: with the default
    flags the call goes on to the statistics and raises in [np.max]. *)
Lemma stats_of_zero_size_array :
  ~ (forall name data stat_prefix always_show_all_stats exclude_max_min,
       empty data ->
       create_stats_ordered_dict name data stat_prefix
         always_show_all_stats exclude_max_min = Some []).
Proof.
  intros H.
  specialize (H "Returns" (Shaped [3; 0]%nat []) None true false).
  discriminate H. by split.
Qed.

(** C9 (amended). For every list or array, [create_stats_ordered_dict]
    returns the empty ordered mapping exactly when [len(data)] is 0, whatever
    the name, the prefix and the flags; an array without entries whose first
    axis is not empty is not returned empty.  For every number it returns
    the single entry [{name: data}], [name] being the name it has formed
    from the prefix. *)
Theorem stats_of_empty_or_number name stat_prefix always_show_all_stats exclude_max_min :
  (forall data, list_or_array data ->
     (create_stats_ordered_dict name data stat_prefix
        always_show_all_stats exclude_max_min = Some [] <-> len data = Some 0%nat)) /\
  forall x,
    create_stats_ordered_dict name (Number x) stat_prefix
      always_show_all_stats exclude_max_min =
      Some [(match stat_prefix with Some prefix => prefix +:+ name | None => name end, x)].
Proof.
  split; [|intros x; by destruct stat_prefix].
  intros data Hdata.
  set (full := match stat_prefix with Some prefix => prefix +:+ name | None => name end).
  destruct data as [x|items|items|xs|shape xs]; try done.
  - destruct items as [|d rest]; [by destruct stat_prefix|].
    split; [|done]. intros H. exfalso. destruct d as [x|ds|ds|ys|sh ys].
    + assert (create_stats_ordered_dict name (PyList (Number x :: rest)) stat_prefix
                always_show_all_stats exclude_max_min =
              (xs ← as_scalars (Number x :: rest); stats full xs exclude_max_min))
        as Heq by (by destruct stat_prefix).
      rewrite Heq in H. destruct (as_scalars (Number x :: rest)) as [xs|]; [|done].
      by apply stats_not_empty in H.
    + assert (create_stats_ordered_dict name (PyList (Tuple ds :: rest)) stat_prefix
                always_show_all_stats exclude_max_min =
              (xs ← np_concatenate (Tuple ds :: rest);
               of_array full xs always_show_all_stats exclude_max_min))
        as Heq by (by destruct stat_prefix).
      rewrite Heq in H. destruct (np_concatenate (Tuple ds :: rest)) as [xs|]; [|done].
      by apply of_array_not_empty in H.
    + assert (create_stats_ordered_dict name (PyList (PyList ds :: rest)) stat_prefix
                always_show_all_stats exclude_max_min =
              (xs ← np_concatenate (PyList ds :: rest);
               of_array full xs always_show_all_stats exclude_max_min))
        as Heq by (by destruct stat_prefix).
      rewrite Heq in H. destruct (np_concatenate (PyList ds :: rest)) as [xs|]; [|done].
      by apply of_array_not_empty in H.
    + assert (create_stats_ordered_dict name (PyList (NdArray ys :: rest)) stat_prefix
                always_show_all_stats exclude_max_min =
              (xs ← np_concatenate (NdArray ys :: rest);
               of_array full xs always_show_all_stats exclude_max_min))
        as Heq by (by destruct stat_prefix).
      rewrite Heq in H. destruct (np_concatenate (NdArray ys :: rest)) as [xs|]; [|done].
      by apply of_array_not_empty in H.
    + assert (create_stats_ordered_dict name (PyList (Shaped sh ys :: rest)) stat_prefix
                always_show_all_stats exclude_max_min =
              (xs ← np_concatenate (Shaped sh ys :: rest);
               of_array full xs always_show_all_stats exclude_max_min))
        as Heq by (by destruct stat_prefix).
      rewrite Heq in H. destruct (np_concatenate (Shaped sh ys :: rest)) as [xs|]; [|done].
      by apply of_array_not_empty in H.
  - destruct xs as [|x xs]; [by destruct stat_prefix|].
    split; [|done]. intros H. exfalso.
    assert (create_stats_ordered_dict name (NdArray (x :: xs)) stat_prefix
              always_show_all_stats exclude_max_min =
            of_array full (x :: xs) always_show_all_stats exclude_max_min)
      as Heq by (by destruct stat_prefix).
    rewrite Heq in H. by apply of_array_not_empty in H.
  - destruct shape as [|[|n] item_shape]; [by destruct stat_prefix..|].
    split; [|done]. intros H. exfalso.
    assert (create_stats_ordered_dict name (Shaped (S n :: item_shape) xs) stat_prefix
              always_show_all_stats exclude_max_min =
            of_array full xs always_show_all_stats exclude_max_min)
      as Heq by (by destruct stat_prefix).
    rewrite Heq in H. by apply of_array_not_empty in H.
Qed.

Lemma stats_of_empty_or_number_witness :
  create_stats_ordered_dict "Returns" (Shaped [0; 4]%nat []) (Some "eval/") false true =
    Some [] <->
  len (Shaped [0; 4]%nat []) = Some 0%nat.
Proof.
  apply (stats_of_empty_or_number "Returns" (Some "eval/") false true). exact I.
Defined.

End Stats.

(** ** A JSON-able snapshot: [safe_json], [dict_to_safe_json] *)

Module SafeJson.

(** The keys of a dict: strings, the other keys [json] accepts, and hashable
    objects it does not, such as tuples. *)
Inductive key :=
  | KeyStr (s : string)
  | KeyInt (z : Z)
  | KeyFloat (q : Q)
  | KeyBool (b : bool)
  | KeyNone
  | KeyTuple (items : list Z).

(** Python values.  A dict is the list of its items in insertion order; an
    object of any other class is given by a name. *)
Inductive value :=
  | PyNone
  | PyBool (b : bool)
  | PyInt (z : Z)
  | PyFloat (q : Q)
  | PyStr (s : string)
  | PyTuple (items : list value)
  | PyList (items : list value)
  | PyDict (items : list (key * value))
  | PyObject (name : string).

(** [isinstance(k, str)] *)
Definition is_str (k : key) : bool :=
  match k with KeyStr _ => true | _ => false end.

(** [safe_json(data)] *)
Fixpoint safe_json (data : value) : bool :=
  match data with
  | PyNone => true
  | PyBool _ | PyInt _ | PyFloat _ => true
  | PyTuple items | PyList items => forallb safe_json items
  | PyDict items => forallb (fun kv => is_str kv.1 && safe_json kv.2) items
  | PyStr _ | PyObject _ => false
  end.

(** What [json.dumps] accepts as a key (it writes it as a string), and as a
    value, with its default arguments. *)
Definition json_key (k : key) : bool :=
  match k with KeyTuple _ => false | _ => true end.

Fixpoint json_serializable (data : value) : bool :=
  match data with
  | PyNone | PyBool _ | PyInt _ | PyFloat _ | PyStr _ => true
  | PyTuple items | PyList items => forallb json_serializable items
  | PyDict items =>
      forallb (fun kv => json_key kv.1 && json_serializable kv.2) items
  | PyObject _ => false
  end.

Section Conversion.

(** Python's [str(item)]. *)
Variable str : value -> string.

(** What the loop body stores under a key for [item]; the middle case is the
    recursive call [dict_to_safe_json(item)], whose loop is the inner [fix]. *)
Fixpoint converted (item : value) : value :=
  if safe_json item then item
  else
    match item with
    | PyDict d =>
        PyDict ((fix loop (d : list (key * value)) : list (key * value) :=
                   match d with
                   | [] => []
                   | (key, item) :: rest => (key, converted item) :: loop rest
                   end) d)
    | _ => PyStr (str item)
    end.

(** [dict_to_safe_json(d)]: the keys of a dict are distinct, so every
    assignment [new_d[key] = ...] adds one item at the end. *)
Fixpoint dict_to_safe_json (d : list (key * value)) : list (key * value) :=
  match d with
  | [] => []
  | (key, item) :: rest => (key, converted item) :: dict_to_safe_json rest
  end.

End Conversion.

(** The dicts that the conversion walks into have keys [json] accepts. *)
Fixpoint nested_keys_ok (item : value) : bool :=
  match item with
  | PyDict d => forallb (fun kv => json_key kv.1 && nested_keys_ok kv.2) d
  | _ => true
  end.

(** The claim as stated: whatever the input dict, every value of the result
    is JSON-serializable. *)
Definition values_always_serializable : Prop :=
  forall (str : value -> string) (d : list (key * value)),
    Forall (fun kv => json_serializable kv.2 = true) (dict_to_safe_json str d).

(** *** Induction on values, through the lists they hold *)

Section ValueInd.

Variable P : value -> Prop.
Hypothesis HNone : P PyNone.
Hypothesis HBool : forall b, P (PyBool b).
Hypothesis HInt : forall z, P (PyInt z).
Hypothesis HFloat : forall q, P (PyFloat q).
Hypothesis HStr : forall s, P (PyStr s).
Hypothesis HTuple : forall items, Forall P items -> P (PyTuple items).
Hypothesis HList : forall items, Forall P items -> P (PyList items).
Hypothesis HDict : forall items, Forall (fun kv => P kv.2) items -> P (PyDict items).
Hypothesis HObject : forall name, P (PyObject name).

Fixpoint value_nested_ind (v : value) : P v :=
  match v with
  | PyNone => HNone
  | PyBool b => HBool b
  | PyInt z => HInt z
  | PyFloat q => HFloat q
  | PyStr s => HStr s
  | PyTuple items =>
      HTuple items
        ((fix all (l : list value) : Forall P l :=
            match l with
            | [] => @List.Forall_nil _ P
            | x :: r => @List.Forall_cons _ P x r (value_nested_ind x) (all r)
            end) items)
  | PyList items =>
      HList items
        ((fix all (l : list value) : Forall P l :=
            match l with
            | [] => @List.Forall_nil _ P
            | x :: r => @List.Forall_cons _ P x r (value_nested_ind x) (all r)
            end) items)
  | PyDict items =>
      HDict items
        ((fix all (l : list (key * value)) : Forall (fun kv => P kv.2) l :=
            match l with
            | [] => @List.Forall_nil _ _
            | kv :: r => @List.Forall_cons _ _ kv r (value_nested_ind kv.2) (all r)
            end) items)
  | PyObject name => HObject name
  end.

End ValueInd.

(** *** What [safe_json] accepts, [json] accepts *)

Lemma is_str_json_key k : is_str k = true -> json_key k = true.
Proof. by destruct k. Qed.

Lemma forallb_impl {A} (f g : A -> bool) (l : list A) :
  Forall (fun x => f x = true -> g x = true) l ->
  forallb f l = true -> forallb g l = true.
Proof.
  induction 1 as [|x l Hx _ IH]; cbn; [done|].
  intros [Hf Hl]%andb_prop. rewrite Hx, IH; done.
Qed.

Lemma forallb_ext_Forall {A} (f g : A -> bool) (l : list A) :
  Forall (fun x => f x = g x) l -> forallb f l = forallb g l.
Proof. induction 1 as [|x l Hx _ IH]; cbn; [done|]. by rewrite Hx, IH. Qed.

Lemma safe_json_serializable v :
  safe_json v = true -> json_serializable v = true.
Proof.
  induction v as [| | | | |items IH|items IH|items IH|] using value_nested_ind;
    cbn; try done.
  - by apply forallb_impl.
  - by apply forallb_impl.
  - apply forallb_impl. eapply Forall_impl; [exact IH|].
    intros [k v] Hv [Hk Hs]%andb_prop. cbn in *.
    by rewrite (is_str_json_key _ Hk), Hv.
Qed.

Lemma safe_json_keys_ok v : safe_json v = true -> nested_keys_ok v = true.
Proof.
  induction v as [| | | | |items IH|items IH|items IH|] using value_nested_ind;
    cbn; try done.
  apply forallb_impl. eapply Forall_impl; [exact IH|].
  intros [k v] Hv [Hk Hs]%andb_prop. cbn in *.
  by rewrite (is_str_json_key _ Hk), Hv.
Qed.

Section ConversionFacts.

Variable str : value -> string.

(** The recursive call, as the source writes it. *)
Lemma converted_dict d :
  converted str (PyDict d) =
    if safe_json (PyDict d) then PyDict d else PyDict (dict_to_safe_json str d).
Proof.
  cbn [converted]. destruct (safe_json (PyDict d)); reflexivity.
Qed.

Lemma converted_cases item :
  converted str item =
    if safe_json item then item
    else match item with
         | PyDict d => PyDict (dict_to_safe_json str d)
         | _ => PyStr (str item)
         end.
Proof.
  destruct item; reflexivity.
Qed.

Lemma dict_to_safe_json_keys d : (dict_to_safe_json str d).*1 = d.*1.
Proof. induction d as [|[k i] rest IH]; cbn; [done|]. by rewrite IH. Qed.

Lemma dict_to_safe_json_serializable_forallb d :
  Forall (fun kv => json_serializable (converted str kv.2) = nested_keys_ok kv.2) d ->
  forallb (fun kv => json_key kv.1 && json_serializable kv.2) (dict_to_safe_json str d) =
  forallb (fun kv => json_key kv.1 && nested_keys_ok kv.2) d.
Proof.
  induction 1 as [|[k i] rest Hi _ IH]; cbn; [done|].
  cbn in Hi. by rewrite Hi, IH.
Qed.

(** A converted value is JSON-serializable exactly when the dicts walked
    into have keys that [json] accepts. *)
Lemma converted_serializable item :
  json_serializable (converted str item) = nested_keys_ok item.
Proof.
  induction item as [| | | | |items IH|items IH|items IH|]
    using value_nested_ind; try reflexivity.
  - rewrite converted_cases. destruct (safe_json (PyTuple items)) eqn:E; [|done].
    by apply safe_json_serializable.
  - rewrite converted_cases. destruct (safe_json (PyList items)) eqn:E; [|done].
    by apply safe_json_serializable.
  - rewrite converted_cases. destruct (safe_json (PyDict items)) eqn:E.
    + rewrite safe_json_serializable, safe_json_keys_ok; done.
    + cbn [json_serializable nested_keys_ok].
      by apply dict_to_safe_json_serializable_forallb.
Qed.

End ConversionFacts.

(** *** The specification's statement *)

(** A configuration with a nested dict keyed by a tuple,
    [{"sizes": {(1, 2): 3}}]: the nested dict fails [safe_json], is converted
    item by item and keeps its key, which [json.dumps] refuses. *)
Lemma dict_to_safe_json_tuple_key : ~ values_always_serializable.
Proof.
  intros H.
  specialize (H (fun _ => "") [(KeyStr "sizes", PyDict [(KeyTuple [1; 2]%Z, PyInt 3)])]).
  apply Forall_cons_1 in H as [H _]. cbn in H. discriminate H.
Qed.

(** C6. On [{"sizes": {(1, 2): 3}}] the function returns the dict as it
    was given, whatever [str] is, and the value of ["sizes"] is not
    JSON-serializable: [safe_json] has seen the key that is no string, and
    the recursion keeps it. *)
Theorem dict_to_safe_json_keeps_tuple_key (str : value -> string) :
  dict_to_safe_json str [(KeyStr "sizes", PyDict [(KeyTuple [1; 2]%Z, PyInt 3)])] =
    [(KeyStr "sizes", PyDict [(KeyTuple [1; 2]%Z, PyInt 3)])] /\
  safe_json (PyDict [(KeyTuple [1; 2]%Z, PyInt 3)]) = false /\
  json_serializable (PyDict [(KeyTuple [1; 2]%Z, PyInt 3)]) = false.
Proof. repeat split; reflexivity. Qed.

(** X24. For every input dict [dict_to_safe_json] returns a dict with the
    same keys: a value passing [safe_json] is kept as it is, a dict value
    failing it is converted recursively, any other failing value is replaced
    by its string form; every value returned is JSON-serializable when the
    nested dicts that are converted have keys JSON accepts. *)
Theorem dict_to_safe_json_spec (str : value -> string) (d : list (key * value)) :
  (dict_to_safe_json str d).*1 = d.*1 /\
  Forall2 (fun kv kv' =>
             kv'.1 = kv.1 /\
             kv'.2 = if safe_json kv.2 then kv.2
                     else match kv.2 with
                          | PyDict d' => PyDict (dict_to_safe_json str d')
                          | _ => PyStr (str kv.2)
                          end)
    d (dict_to_safe_json str d) /\
  (Forall (fun kv => nested_keys_ok kv.2 = true) d ->
   Forall (fun kv => json_serializable kv.2 = true) (dict_to_safe_json str d)).
Proof.
  split; [apply dict_to_safe_json_keys|split].
  - induction d as [|[k i] rest IH]; cbn; constructor; [|exact IH].
    split; [done|]. cbn. apply converted_cases.
  - induction 1 as [|[k i] rest Hi _ IH]; cbn; constructor; [|exact IH].
    cbn in *. by rewrite converted_serializable.
Qed.

Lemma dict_to_safe_json_spec_witness :
  Forall (fun kv => json_serializable kv.2 = true)
    (dict_to_safe_json (fun _ => "<object>")
       [(KeyStr "env", PyObject "Pendulum"); (KeyStr "sizes", PyDict [(KeyInt 1, PyStr "a")])]).
Proof.
  apply (dict_to_safe_json_spec (fun _ => "<object>")
           [(KeyStr "env", PyObject "Pendulum"); (KeyStr "sizes", PyDict [(KeyInt 1, PyStr "a")])]).
  repeat constructor.
Defined.

(** A variant as a launcher writes it: the class is replaced by its string
    form, inside the nested dict too. *)
Example dict_to_safe_json_variant :
  dict_to_safe_json (fun item => match item with PyStr s => s | _ => "<class>" end)
    [(KeyStr "tau", PyFloat (1 # 100));
     (KeyStr "name", PyStr "sac");
     (KeyStr "sizes", PyList [PyInt 64; PyInt 64]);
     (KeyStr "algo", PyDict [(KeyStr "cls", PyObject "SAC"); (KeyStr "lr", PyFloat (3 # 10000))])] =
    [(KeyStr "tau", PyFloat (1 # 100));
     (KeyStr "name", PyStr "sac");
     (KeyStr "sizes", PyList [PyInt 64; PyInt 64]);
     (KeyStr "algo", PyDict [(KeyStr "cls", PyStr "<class>"); (KeyStr "lr", PyFloat (3 # 10000))])].
Proof. reflexivity. Qed.

End SafeJson.

(** ** Accumulating dicts of lists: [cat_dict] *)

Module CatDict.

Import PyDict.

(** A Python object as [cat_dict] meets it: a list object, named by its
    address, or an object of another kind. *)
Inductive value :=
  | Other (z : Z)
  | ListRef (l : nat).

(** The list objects: at each address, the elements of the list there. *)
Abbreviation heap := (list (list value)) (only parsing).
Abbreviation dict := (list (string * value)) (only parsing).

(** [xs.append(v)] for the list object at address [l]. *)
Definition append (h : heap) (l : nat) (v : value) : option heap :=
  xs ← h !! l; Some (<[l := xs ++ [v]]> h).

(** The body of the loop for [key].  [None] is an exception: [KeyError], or
    [AttributeError] when [orig[key]] has no [append]. *)
Definition cat_dict_step (new : dict) (st : dict * heap) (key : string)
    : option (dict * heap) :=
  v ← getitem new key;
  if contains st.1 key then
    match getitem st.1 key with
    | Some (ListRef l) => h ← append st.2 l v; Some (st.1, h)
    | _ => None
    end
  else
    (* [new[key]]: a new list object, at the next free address *)
    Some (setitem st.1 key (ListRef (length st.2)), st.2 ++ [[v]]).

Fixpoint cat_dict_loop (keys : list string) (new : dict) (st : dict * heap)
    : option (dict * heap) :=
  match keys with
  | [] => Some st
  | key :: rest => st' ← cat_dict_step new st key; cat_dict_loop rest new st'
  end.

(** [cat_dict(orig, new)] on the heap [h]: the dict [orig] and the heap
    after the call. *)
Definition cat_dict (orig new : dict) (h : heap) : option (dict * heap) :=
  cat_dict_loop new.*1 new (orig, h).

(** The list a key maps to, read off the heap. *)
Definition read (d : dict) (h : heap) (key : string) : option (list value) :=
  match getitem d key with
  | Some (ListRef l) => h !! l
  | _ => None
  end.

(** A dict has distinct keys. *)
Definition is_dict (d : dict) : Prop := NoDup d.*1.

(** Every value of the dict is a list of the heap. *)
Definition lists_only (d : dict) (h : heap) : Prop :=
  forall key x, getitem d key = Some x -> exists l, x = ListRef l /\ is_Some (h !! l).

(** No list object is the value of two keys. *)
Definition unshared (d : dict) : Prop :=
  forall k1 k2 l,
    getitem d k1 = Some (ListRef l) -> getitem d k2 = Some (ListRef l) -> k1 = k2.

(** The list object at [l] is reached from the value [x]: [x] is that list,
    or a list one of whose items reaches it. *)
Inductive reach (h : heap) : value -> nat -> Prop :=
  | reach_here l xs : h !! l = Some xs -> reach h (ListRef l) l
  | reach_item l xs x l' :
      h !! l = Some xs -> x ∈ xs -> reach h x l' -> reach h (ListRef l) l'.

(** The value [x] is in [h'] what it was in [h], as Python's [==] compares
    it: every list object reached from it holds the items it held. *)
Definition same (h h' : heap) (x : value) : Prop :=
  forall l, reach h x l -> h' !! l = h !! l.

(** The keys of [new] that [orig] has hold lists of the heap there. *)
Definition lists_at (orig new : dict) (h : heap) : Prop :=
  forall key x, is_Some (getitem new key) -> getitem orig key = Some x ->
    exists l, x = ListRef l /\ is_Some (h !! l).

(** A list that [orig] holds under a key of [new] is the value of that key
    only, and no item of a list that [orig] holds reaches it. *)
Definition apart (orig new : dict) (h : heap) : Prop :=
  forall key l, is_Some (getitem new key) -> getitem orig key = Some (ListRef l) ->
    (forall key', getitem orig key' = Some (ListRef l) -> key' = key) /\
    (forall key' l' xs x,
       getitem orig key' = Some (ListRef l') -> h !! l' = Some xs -> x ∈ xs ->
       ~ reach h x l).

(** What the specification says of the state after the call: the list of a
    key of both dicts is the list object it was, with its items as they were
    and [new[key]] after them; a key of [new] only has a new list of one
    item; an entry of another key is what it was. *)
Definition cat_dict_post (orig new : dict) (h : heap) (orig' : dict) (h' : heap)
    : Prop :=
  (forall key v l xs,
     getitem new key = Some v -> getitem orig key = Some (ListRef l) ->
     h !! l = Some xs ->
     getitem orig' key = Some (ListRef l) /\ h' !! l = Some (xs ++ [v]) /\
     Forall (same h h') xs) /\
  (forall key v, getitem new key = Some v -> getitem orig key = None ->
     exists l, h !! l = None /\ getitem orig' key = Some (ListRef l) /\
               h' !! l = Some [v]) /\
  (forall key x, getitem new key = None -> getitem orig key = Some x ->
     getitem orig' key = Some x /\ same h h' x).

(** The claim as stated, for every pair of dicts with which the call does
    not raise. *)
Definition cat_dict_claim : Prop :=
  forall (orig new : dict) (h : heap),
    is_dict orig -> is_dict new -> lists_at orig new h ->
    exists orig' h',
      cat_dict orig new h = Some (orig', h') /\ cat_dict_post orig new h orig' h'.

(** What one iteration keeps and what it changes. *)
Record step_spec (orig : dict) (h : heap) (key : string) (v : value)
    (orig1 : dict) (h1 : heap) : Prop := {
  step_lists : lists_only orig1 h1;
  step_unshared : unshared orig1;
  step_frame : forall k, k <> key ->
    getitem orig1 k = getitem orig k /\ read orig1 h1 k = read orig h k;
  step_append : forall xs, read orig h key = Some xs ->
    getitem orig1 key = getitem orig key /\ read orig1 h1 key = Some (xs ++ [v]);
  step_new : getitem orig key = None -> read orig1 h1 key = Some [v]
}.

(** *** One iteration *)

Lemma contains_true (d : dict) key :
  contains d key = true <-> is_Some (getitem d key).
Proof. unfold contains. apply bool_decide_eq_true. Qed.

Lemma contains_false (d : dict) key :
  contains d key = false <-> getitem d key = None.
Proof.
  unfold contains. rewrite bool_decide_eq_false, <- eq_None_not_Some. done.
Qed.

Lemma cat_dict_step_spec (new orig : dict) (h : heap) key v :
  getitem new key = Some v -> lists_only orig h -> unshared orig ->
  exists orig1 h1,
    cat_dict_step new (orig, h) key = Some (orig1, h1) /\
    step_spec orig h key v orig1 h1.
Proof.
  intros Hv Hlists Hun. unfold cat_dict_step. rewrite Hv. cbn.
  destruct (contains orig key) eqn:Hc.
  - apply contains_true in Hc as [x Hx].
    destruct (Hlists _ _ Hx) as (l & -> & [xs Hxs]).
    rewrite Hx. unfold append. rewrite Hxs. cbn.
    pose proof (lookup_lt_Some _ _ _ Hxs) as Hlt.
    eexists _, _. split; [reflexivity|]. split.
    + intros k y Hy. destruct (Hlists _ _ Hy) as (l' & -> & Hsome).
      exists l'. split; [done|]. apply lookup_lt_is_Some in Hsome.
      apply lookup_lt_is_Some. by rewrite length_insert.
    + done.
    + intros k Hk. split; [done|]. unfold read.
      destruct (getitem orig k) as [[z|l']|] eqn:Hk'; try done.
      apply list_lookup_insert_ne. intros ->. apply Hk. by apply (Hun _ _ l').
    + intros xs' Hread. unfold read in *. rewrite Hx in *.
      rewrite Hxs in Hread. injection Hread as <-. split; [done|].
      by apply list_lookup_insert_eq.
    + intros Hnone. by rewrite Hnone in Hx.
  - apply contains_false in Hc.
    eexists _, _. split; [reflexivity|]. split.
    + intros k y. rewrite getitem_setitem.
      destruct (decide (key = k)) as [->|Hne].
      * intros [= <-]. exists (length h). split; [done|].
        apply lookup_lt_is_Some. rewrite length_app. cbn. lia.
      * intros Hy. destruct (Hlists _ _ Hy) as (l' & -> & Hsome).
        exists l'. split; [done|]. apply lookup_lt_is_Some in Hsome.
        apply lookup_lt_is_Some. rewrite length_app. lia.
    + intros k1 k2 l. rewrite !getitem_setitem.
      destruct (decide (key = k1)) as [<-|Hne1];
        destruct (decide (key = k2)) as [<-|Hne2]; [done| | |by apply Hun].
      * intros [= <-] H2.
        destruct (Hlists _ _ H2) as (l' & [= <-] & Hsome).
        apply lookup_lt_is_Some in Hsome. lia.
      * intros H1 [= <-].
        destruct (Hlists _ _ H1) as (l' & [= <-] & Hsome).
        apply lookup_lt_is_Some in Hsome. lia.
    + intros k Hk. rewrite getitem_setitem, decide_False by done.
      split; [done|]. unfold read. rewrite getitem_setitem, decide_False by done.
      destruct (getitem orig k) as [[z|l']|] eqn:Hk'; try done.
      destruct (Hlists _ _ Hk') as (l'' & [= <-] & Hsome).
      apply lookup_lt_is_Some in Hsome. by apply lookup_app_l.
    + intros xs Hread. unfold read in Hread. by rewrite Hc in Hread.
    + intros _. unfold read. rewrite getitem_setitem, decide_True by done.
      by apply list_lookup_middle.
Qed.

(** *** The loop over the keys of [new] *)

Lemma cat_dict_loop_spec (new : dict) keys : forall (orig : dict) (h : heap),
  NoDup keys -> (forall key, key ∈ keys -> is_Some (getitem new key)) ->
  lists_only orig h -> unshared orig ->
  exists orig' h',
    cat_dict_loop keys new (orig, h) = Some (orig', h') /\
    lists_only orig' h' /\ unshared orig' /\
    (forall key v, key ∈ keys -> getitem new key = Some v ->
       (forall xs, read orig h key = Some xs -> read orig' h' key = Some (xs ++ [v])) /\
       (getitem orig key = None -> read orig' h' key = Some [v])) /\
    (forall key, key ∉ keys ->
       getitem orig' key = getitem orig key /\ read orig' h' key = read orig h key).
Proof.
  induction keys as [|k rest IH]; intros orig h Hnd Hkeys Hlists Hun.
  - exists orig, h. split_and!; try done. intros key v Hin. by apply elem_of_nil in Hin.
  - apply NoDup_cons in Hnd as [Hfresh Hnd].
    destruct (Hkeys k) as [vk Hvk]; [left|].
    destruct (cat_dict_step_spec new orig h k vk Hvk Hlists Hun)
      as (orig1 & h1 & Hstep & [Hl1 Hu1 Hframe1 Happ1 Hnew1]).
    destruct (IH orig1 h1 Hnd) as (orig' & h' & Hloop & Hl' & Hu' & Hin' & Hout');
      [intros key Hkey; apply Hkeys; by right|done|done|].
    exists orig', h'. cbn. rewrite Hstep. cbn. split_and!; try done.
    + intros key v [->|Hin]%elem_of_cons Hv.
      * rewrite Hvk in Hv. injection Hv as <-.
        destruct (Hout' k Hfresh) as [_ Hread]. rewrite Hread. split.
        -- intros xs Hxs. by apply Happ1.
        -- done.
      * assert (key <> k) as Hne by (intros ->; done).
        destruct (Hframe1 key Hne) as [Hget Hread].
        destruct (Hin' key v Hin Hv) as [Happ Hnew]. split.
        -- intros xs Hxs. apply Happ. by rewrite Hread.
        -- intros Hnone. apply Hnew. by rewrite Hget.
    + intros key [Hne Hrest]%not_elem_of_cons.
      destruct (Hframe1 key Hne) as [Hget Hread].
      destruct (Hout' key Hrest) as [Hget' Hread'].
      split; congruence.
Qed.

(** *** What the loop does to the heap *)

Lemma reach_allocated (h : heap) x l : reach h x l -> is_Some (h !! l).
Proof. induction 1 as [l xs Hl|]; [by eexists|done]. Qed.

Lemma cat_dict_loop_heap (new : dict) keys : forall (orig : dict) (h : heap),
  NoDup keys -> (forall key, key ∈ keys -> is_Some (getitem new key)) ->
  (forall key x, key ∈ keys -> getitem orig key = Some x ->
     exists l, x = ListRef l /\ is_Some (h !! l)) ->
  (forall k1 k2 l, k1 ∈ keys -> k2 ∈ keys ->
     getitem orig k1 = Some (ListRef l) -> getitem orig k2 = Some (ListRef l) ->
     k1 = k2) ->
  exists orig' h',
    cat_dict_loop keys new (orig, h) = Some (orig', h') /\
    (forall key, key ∉ keys -> getitem orig' key = getitem orig key) /\
    (forall l xs, h !! l = Some xs ->
       (forall key, key ∈ keys -> getitem orig key <> Some (ListRef l)) ->
       h' !! l = Some xs) /\
    (forall key v l xs, key ∈ keys -> getitem new key = Some v ->
       getitem orig key = Some (ListRef l) -> h !! l = Some xs ->
       getitem orig' key = Some (ListRef l) /\ h' !! l = Some (xs ++ [v])) /\
    (forall key v, key ∈ keys -> getitem new key = Some v ->
       getitem orig key = None ->
       exists l, h !! l = None /\ getitem orig' key = Some (ListRef l) /\
                 h' !! l = Some [v]).
Proof.
  induction keys as [|k rest IH]; intros orig h Hnd Hkeys Hlists Hone.
  - exists orig, h. split_and!; try done.
    + intros key v l xs Hin. by apply elem_of_nil in Hin.
    + intros key v Hin. by apply elem_of_nil in Hin.
  - apply NoDup_cons in Hnd as [Hfresh Hnd].
    destruct (Hkeys k) as [vk Hvk]; [left|].
    cbn [cat_dict_loop]. unfold cat_dict_step. cbn [fst snd]. rewrite Hvk.
    cbn [mbind option_bind].
    destruct (contains orig k) eqn:Hc.
    + apply contains_true in Hc as [x Hx].
      destruct (Hlists k x) as (lk & -> & [xk Hxk]); [left|done|].
      rewrite Hx. unfold append. rewrite Hxk. cbn [mbind option_bind].
      pose proof (lookup_lt_Some _ _ _ Hxk) as Hlt.
      destruct (IH orig (<[lk := xk ++ [vk]]> h) Hnd)
        as (orig' & h' & Hrun & Hout & Hframe & Happ & Hnew).
      { intros key Hkey. apply Hkeys. by right. }
      { intros key x Hkey Hkx. destruct (Hlists key x) as (l & -> & Hl);
          [by right|done|]. exists l. split; [done|].
        apply lookup_lt_is_Some. rewrite length_insert.
        by apply lookup_lt_is_Some. }
      { intros k1 k2 l H1 H2. apply Hone; by right. }
      assert (forall key l, key ∈ rest -> getitem orig key = Some (ListRef l) ->
                l <> lk) as Hother.
      { intros key l Hkey Hkl ->. apply Hfresh.
        by rewrite (Hone k key lk); [|left|right|..]. }
      exists orig', h'. split; [exact Hrun|]. split_and!.
      * intros key [Hne Hrest]%not_elem_of_cons. by apply Hout.
      * intros l xs Hl Hno. apply Hframe.
        -- rewrite list_lookup_insert_ne; [done|]. intros <-.
           by apply (Hno k); [left|].
        -- intros key Hkey. apply Hno. by right.
      * intros key v l xs [->|Hkey]%elem_of_cons Hv Hkl Hl.
        -- rewrite Hvk in Hv. injection Hv as <-.
           rewrite Hx in Hkl. injection Hkl as <-.
           rewrite Hxk in Hl. injection Hl as <-.
           split; [by rewrite Hout|]. apply Hframe.
           ++ by apply list_lookup_insert_eq.
           ++ intros key Hkey Hkl. by apply (Hother key lk).
        -- apply (Happ key v l xs); [done..|].
           rewrite list_lookup_insert_ne; [done|]. intros <-.
           by apply (Hother key lk).
      * intros key v [->|Hkey]%elem_of_cons Hv Hnone; [congruence|].
        destruct (Hnew key v Hkey Hv Hnone) as (l & Hl & Hkl & Hl').
        exists l. split; [|done].
        apply lookup_ge_None. apply lookup_ge_None in Hl.
        by rewrite length_insert in Hl.
    + apply contains_false in Hc.
      assert (forall key, key ∈ rest ->
                getitem (setitem orig k (ListRef (length h))) key = getitem orig key)
        as Hsame.
      { intros key Hkey. rewrite getitem_setitem, decide_False; [done|].
        by intros <-. }
      destruct (IH (setitem orig k (ListRef (length h))) (h ++ [[vk]]) Hnd)
        as (orig' & h' & Hrun & Hout & Hframe & Happ & Hnew).
      { intros key Hkey. apply Hkeys. by right. }
      { intros key x Hkey. rewrite Hsame by done. intros Hkx.
        destruct (Hlists key x) as (l & -> & Hl); [by right|done|].
        exists l. split; [done|]. apply lookup_lt_is_Some.
        rewrite length_app. apply lookup_lt_is_Some in Hl. lia. }
      { intros k1 k2 l H1 H2. rewrite !Hsame by done. apply Hone; by right. }
      assert (forall key, key ∈ rest ->
                getitem orig key <> Some (ListRef (length h))) as Hnext.
      { intros key Hkey Hkl.
        destruct (Hlists key _ ltac:(by right) Hkl) as (l & [= <-] & Hl).
        apply lookup_lt_is_Some in Hl. lia. }
      exists orig', h'. split; [exact Hrun|]. split_and!.
      * intros key [Hne Hrest]%not_elem_of_cons.
        rewrite Hout by done. by rewrite getitem_setitem, decide_False.
      * intros l xs Hl Hno. apply Hframe.
        -- pose proof (lookup_lt_Some _ _ _ Hl). by rewrite lookup_app_l.
        -- intros key Hkey. rewrite Hsame by done. apply Hno. by right.
      * intros key v l xs [->|Hkey]%elem_of_cons Hv Hkl Hl; [congruence|].
        apply (Happ key v l xs); [done..|by rewrite Hsame|].
        pose proof (lookup_lt_Some _ _ _ Hl). by rewrite lookup_app_l.
      * intros key v [->|Hkey]%elem_of_cons Hv Hnone.
        -- rewrite Hvk in Hv. injection Hv as <-.
           exists (length h). split; [by apply lookup_ge_None|].
           split; [by rewrite Hout, getitem_setitem, decide_True|].
           apply Hframe; [by apply list_lookup_middle|].
           intros key Hkey. rewrite Hsame by done. by apply Hnext.
        -- destruct (Hnew key v Hkey Hv) as (l & Hl & Hkl & Hl');
             [by rewrite Hsame|].
           exists l. split; [|done].
           apply lookup_ge_None. apply lookup_ge_None in Hl.
           rewrite length_app in Hl. lia.
Qed.

(** *** The specification's statement *)

(** One list object under two keys, [orig = {"a": L, "b": L}] with [L = []],
    and [new = {"a": 1}]: the call appends to [L], and the entry of ["b"],
    a key that is not in [new], has changed with it. *)
Lemma cat_dict_shared_list : ~ cat_dict_claim.
Proof.
  intros H.
  destruct (H [("a", ListRef 0); ("b", ListRef 0)] [("a", Other 1)] [[]])
    as (orig' & h' & Hrun & _ & _ & Hframe).
  - unfold is_dict. cbn. apply NoDup_cons. split.
    + intros Hin%list_elem_of_singleton. discriminate Hin.
    + apply NoDup_singleton.
  - unfold is_dict. cbn. apply NoDup_singleton.
  - intros key x _. cbn. repeat case_decide; try done; intros [= <-];
      exists 0%nat; (split; [done|by eexists]).
  - vm_compute in Hrun. injection Hrun as <- <-.
    destruct (Hframe "b" (ListRef 0)) as [_ Hsame]; [done..|].
    specialize (Hsame 0%nat (reach_here [[]] 0%nat [] eq_refl)).
    discriminate Hsame.
Qed.

(** A list held under a key of [new] and also inside the list of another
    key, [orig = {"a": L, "b": [L]}]: the entry of ["b"] changes with [L]. *)
Example cat_dict_nested_list :
  cat_dict [("a", ListRef 0); ("b", ListRef 1)] [("a", Other 1)] [[]; [ListRef 0]] =
    Some ([("a", ListRef 0); ("b", ListRef 1)], [[Other 1]; [ListRef 0]]) /\
  ~ same [[]; [ListRef 0]] [[Other 1]; [ListRef 0]] (ListRef 1).
Proof.
  split; [reflexivity|]. intros H.
  assert (reach [[]; [ListRef 0]] (ListRef 1) 0) as Hreach.
  { apply (reach_item _ 1%nat [ListRef 0] (ListRef 0)); [done|left|].
    by apply (reach_here _ 0%nat []). }
  specialize (H 0%nat Hreach). discriminate H.
Qed.

(** C10 (amended). For every pair of dicts [orig] and [new], where each
    key of [new] that [orig] has holds in [orig] a list that is the value of
    no other key of [orig] and that no item of a list held by [orig]
    reaches: after [cat_dict(orig, new)] every key of [new] that was in
    [orig] maps to its previous list with [new[key]] appended as last
    element, every key of [new] absent from [orig] maps to the one-element
    list [[new[key]]], and every entry of [orig] whose key is not in [new]
    is unchanged. *)
Theorem cat_dict_spec (orig new : dict) (h : heap) :
  is_dict new -> lists_at orig new h -> apart orig new h ->
  exists orig' h',
    cat_dict orig new h = Some (orig', h') /\ cat_dict_post orig new h orig' h'.
Proof.
  intros Hnew Hlists Hapart.
  assert (forall key, key ∈ new.*1 <-> is_Some (getitem new key)) as Hkeys.
  { intros key. split.
    - intros Hkey. destruct (getitem new key) eqn:E; [by eexists|].
      by apply getitem_None in E.
    - intros [v Hv]. destruct (decide (key ∈ new.*1)) as [|Hn]; [done|].
      apply getitem_None in Hn. congruence. }
  destruct (cat_dict_loop_heap new new.*1 orig h Hnew)
    as (orig' & h' & Hrun & Hout & Hframe & Happ & Hfresh).
  { intros key. apply Hkeys. }
  { intros key x Hkey. apply Hlists. by apply Hkeys. }
  { intros k1 k2 l H1 _ Hk1 Hk2. symmetry.
    apply (Hapart k1 l); [by apply Hkeys|done..]. }
  assert (forall x l, reach h x l ->
            (forall key, key ∈ new.*1 -> getitem orig key <> Some (ListRef l)) ->
            h' !! l = h !! l) as Hkept.
  { intros x l [xs Hl]%reach_allocated Hno. rewrite Hl. by apply Hframe. }
  exists orig', h'. split; [exact Hrun|]. split; [|split].
  - intros key v l xs Hv Hkl Hl.
    destruct (Happ key v l xs) as [Hkl' Hl']; [apply Hkeys; by eexists|done..|].
    split_and!; [done..|].
    apply Forall_forall. intros x Hx l0 Hreach. apply (Hkept x); [done|].
    intros key0 Hkey0 Hkl0.
    destruct (Hapart key0 l0) as [_ Hin]; [by apply Hkeys|done|].
    by apply (Hin key l xs x).
  - intros key v Hv Hnone. apply (Hfresh key v); [|done..].
    apply Hkeys. by eexists.
  - intros key x Hnone Hx. split.
    + rewrite Hout; [done|]. by apply getitem_None.
    + intros l0 Hreach. apply (Hkept x); [done|].
      intros key0 Hkey0 Hkl0.
      destruct (Hapart key0 l0) as [Hone Hin]; [by apply Hkeys|done|].
      inversion Hreach as [l1 xs Hl1|l1 xs y l2 Hl1 Hy Hreach']; subst.
      * apply Hkeys in Hkey0 as [v Hv]. rewrite (Hone key Hx) in Hnone.
        congruence.
      * by apply (Hin key l1 xs y).
Qed.

Lemma cat_dict_spec_witness :
  exists orig' h',
    cat_dict [("epoch", Other 3); ("loss", ListRef 0)]
      [("loss", Other 2); ("reward", Other 5)] [[Other 1]] = Some (orig', h') /\
    cat_dict_post [("epoch", Other 3); ("loss", ListRef 0)]
      [("loss", Other 2); ("reward", Other 5)] [[Other 1]] orig' h'.
Proof.
  apply (cat_dict_spec [("epoch", Other 3); ("loss", ListRef 0)]
           [("loss", Other 2); ("reward", Other 5)] [[Other 1]]).
  - unfold is_dict. cbn. apply NoDup_cons. split.
    + intros Hin%list_elem_of_singleton. discriminate Hin.
    + apply NoDup_singleton.
  - intros key x Hkey Hx. cbn in Hkey, Hx.
    destruct (decide ("epoch" = key)) as [<-|_].
    + cbn in Hkey. by destruct Hkey.
    + destruct (decide ("loss" = key)) as [<-|_]; [|done].
      injection Hx as <-. exists 0%nat. split; [done|by eexists].
  - intros key l Hkey Hx. cbn in Hkey, Hx.
    destruct (decide ("epoch" = key)) as [<-|_]; [done|].
    destruct (decide ("loss" = key)) as [<-|_]; [|done].
    injection Hx as <-. split.
    + intros key' Hx'. cbn in Hx'.
      destruct (decide ("epoch" = key')) as [<-|_]; [done|].
      by destruct (decide ("loss" = key')) as [<-|_].
    + intros key' l' xs x Hx' Hl' Hin Hreach. cbn in Hx'.
      destruct (decide ("epoch" = key')) as [<-|_]; [done|].
      destruct (decide ("loss" = key')) as [<-|_]; [|done].
      injection Hx' as <-. injection Hl' as <-.
      apply list_elem_of_singleton in Hin as ->. inversion Hreach.
Defined.

(** Two rounds of statistics gathered into one dict. *)
Example cat_dict_two_rounds :
  (st ← cat_dict [] [("loss", Other 3); ("q", Other 7)] [];
   cat_dict st.1 [("loss", Other 2)] st.2) =
  Some ([("loss", ListRef 0); ("q", ListRef 1)], [[Other 3; Other 2]; [Other 7]]).
Proof. reflexivity. Qed.

End CatDict.

(** ** The transition store (the replay buffer) *)

Module TransitionStore.

Section Store.

(** A transition; the store never looks inside one. *)
Context {T : Type}.

(** Modelled from the spec: the class [ReplayBuffer] of [drl_algos.data],
    which [example.py] imports and which is not among the sources.  Section 3
    gives its state: a fixed-size array of slots, a write cursor and the
    count of valid entries. *)
Record store := Store {
  capacity : nat;
  slots : list (option T);
  cursor : nat;
  count : nat
}.

(** Modelled from the spec: a new [ReplayBuffer] of capacity [C], with no
    valid entry. *)
Definition empty (C : nat) : store :=
  {| capacity := C; slots := replicate C None; cursor := 0; count := 0 |}.

(** Modelled from the spec: the write of one transition by [insert]
    (section 4.1): it goes to the slot under the cursor; when the next
    write index would exceed capacity - 1 it wraps to 0; the size advances,
    capped at the capacity. *)
Definition write (s : store) (x : T) : store :=
  {| capacity := capacity s;
     slots := <[cursor s := Some x]> (slots s);
     cursor := if decide (capacity s - 1 < S (cursor s)) then 0 else S (cursor s);
     count := min (S (count s)) (capacity s) |}.

(** Modelled from the spec: [ReplayBuffer.insert(path)] appends every
    transition of the path, in order. *)
Definition insert (s : store) (path : list T) : store := foldl write s path.

(** Modelled from the spec: [ReplayBuffer.size()], the valid-entry count. *)
Definition size (s : store) : nat := count s.

(** The slots in ring order, from the cursor on and around. *)
Definition ring (s : store) : list (option T) :=
  drop (cursor s) (slots s) ++ take (cursor s) (slots s).

(** Modelled from the spec: the entries resident in a [ReplayBuffer], oldest
    first.  Below capacity they are the slots [0, size) (section 4.1); at
    capacity the oldest entry is the one the next write overwrites. *)
Definition resident (s : store) : list T :=
  omap (fun slot => slot)
    (if decide (count s < capacity s) then take (count s) (slots s) else ring s).

(** The state reached from the empty store by the transitions [history],
    written one by one. *)
Record reached (C : nat) (history : list T) (s : store) : Prop := {
  reached_capacity : capacity s = C;
  reached_length : length (slots s) = C;
  reached_count : count s = min C (length history);
  reached_filling : length history < C ->
    cursor s = length history /\
    slots s = (Some <$> history) ++ replicate (C - length history) None;
  reached_full : C <= length history ->
    cursor s <= C - 1 /\
    ring s = Some <$> drop (length history - C) history
}.

(** *** The ring *)

Lemma omap_Some (l : list T) : omap (fun slot => slot) (Some <$> l) = l.
Proof. induction l as [|x l IH]; cbn; [done|]. by rewrite IH. Qed.

(** A write under the cursor drops the head of the ring and adds the new
    entry at its end. *)
Lemma ring_write (l : list (option T)) (c : nat) (x : T) :
  c < length l ->
  let c' := if decide (length l - 1 < S c) then 0 else S c in
  drop c' (<[c := Some x]> l) ++ take c' (<[c := Some x]> l) =
    tail (drop c l ++ take c l) ++ [Some x].
Proof.
  intros Hc c'. destruct (lookup_lt_is_Some_2 l c Hc) as [o Ho].
  rewrite (drop_S _ _ _ Ho). cbn [app tail].
  rewrite (insert_take_drop l c (Some x) Hc).
  assert (length (take c l) = c) as Hlen by (rewrite length_take; lia).
  subst c'. destruct (decide (length l - 1 < S c)) as [Hwrap|Hnext].
  - rewrite drop_0, take_0, app_nil_r.
    by rewrite (drop_ge l (S c)) by lia.
  - replace (take c l ++ Some x :: drop (S c) l)
      with ((take c l ++ [Some x]) ++ drop (S c) l) by (by rewrite <- app_assoc).
    rewrite drop_app_length', take_app_length' by (rewrite length_app; cbn; lia).
    by rewrite app_assoc.
Qed.

Lemma reached_empty C : reached C [] (empty C).
Proof.
  split; cbn.
  - done.
  - apply length_replicate.
  - lia.
  - intros _. split; [done|]. by rewrite Nat.sub_0_r.
  - intros HC. assert (C = 0) as -> by lia. done.
Qed.

Lemma reached_write C history s x :
  reached C history s -> reached C (history ++ [x]) (write s x).
Proof.
  intros [Hcap Hlen Hcount Hfill Hfull].
  assert (length (history ++ [x]) = S (length history)) as Hn
    by (rewrite length_app; cbn; lia).
  split; cbn [write capacity slots cursor count].
  - done.
  - by rewrite length_insert.
  - rewrite Hcount, Hcap, Hn. lia.
  - (* the new length is below the capacity: so was the old one *)
    intros Hlt. rewrite Hn in Hlt.
    destruct Hfill as [Hcur Hslots]; [lia|].
    rewrite Hcur, Hcap, Hn. split.
    + rewrite decide_False by lia. done.
    + rewrite Hslots, insert_app_r_alt by (by rewrite length_fmap).
      rewrite length_fmap, Nat.sub_diag.
      replace (C - length history) with (S (C - S (length history))) by lia.
      cbn. by rewrite fmap_app, <- app_assoc.
  - intros Hge. rewrite Hn in Hge. unfold ring. cbn [write capacity slots cursor].
    destruct (decide (length history < C)) as [Hlt|Hnlt].
    + (* this write fills the last free slot *)
      destruct Hfill as [Hcur Hslots]; [done|].
      assert (S (length history) = C) as HC by lia.
      rewrite Hcur, Hcap, decide_True by lia.
      split; [lia|]. rewrite drop_0, take_0, app_nil_r.
      rewrite Hslots, insert_app_r_alt by (by rewrite length_fmap).
      rewrite length_fmap, Nat.sub_diag.
      replace (C - length history) with 1 by lia. cbn.
      rewrite Hn, HC, Nat.sub_diag, drop_0. by rewrite fmap_app.
    + (* the store was full: the oldest entry goes *)
      destruct Hfull as [Hcur Hring]; [lia|].
      destruct (decide (C = 0)) as [->|HC].
      * destruct (slots s); [|done]. assert (cursor s = 0) as -> by lia.
        rewrite Hcap. split; [case_decide; lia|].
        rewrite decide_True by lia. cbn. rewrite drop_ge; [done|].
        rewrite length_app. cbn. lia.
      * split; [rewrite Hcap; case_decide; lia|].
        rewrite Hcap, <- Hlen, ring_write by lia. unfold ring in Hring.
        rewrite Hring, Hn, Hlen.
        replace (S (length history) - C) with (S (length history - C)) by lia.
        rewrite drop_app_le by lia. rewrite fmap_app. f_equal.
        replace (S (length history - C)) with (length history - C + 1) by lia.
        rewrite <- drop_drop. by destruct (drop (length history - C) history).
Qed.

Lemma reached_foldl C xs : forall history s,
  reached C history s -> reached C (history ++ xs) (foldl write s xs).
Proof.
  induction xs as [|x xs IH]; intros history s H; cbn.
  - by rewrite app_nil_r.
  - replace (history ++ x :: xs) with ((history ++ [x]) ++ xs)
      by (by rewrite <- app_assoc).
    apply IH. by apply reached_write.
Qed.

Lemma insert_paths (paths : list (list T)) : forall s,
  foldl insert s paths = foldl write s (concat paths).
Proof.
  induction paths as [|path paths IH]; intros s; cbn; [done|].
  rewrite IH. unfold insert. by rewrite foldl_app.
Qed.

Lemma resident_reached C history s :
  reached C history s -> resident s = drop (length history - C) history.
Proof.
  intros [Hcap Hlen Hcount Hfill Hfull]. unfold resident.
  rewrite Hcount, Hcap. destruct (decide (length history < C)) as [Hlt|Hge].
  - destruct Hfill as [_ Hslots]; [done|].
    rewrite decide_True by lia. rewrite Hslots.
    rewrite take_app_length' by (rewrite length_fmap; lia).
    rewrite omap_Some. replace (length history - C) with 0 by lia. done.
  - destruct Hfull as [_ Hring]; [lia|].
    rewrite decide_False by lia. by rewrite Hring, omap_Some.
Qed.

(** C7. For every sequence of path insertions into a store of capacity C,
    [size()] is the minimum of C and the number of transitions inserted so
    far, the store holds the most recent of them in insertion order, and
    once the size is C each further transition evicts exactly the oldest
    resident entry. *)
Theorem ring_semantics (C : nat) (paths : list (list T)) :
  let s := foldl insert (empty C) paths in
  let history := concat paths in
  size s = min C (length history) /\
  resident s = drop (length history - C) history /\
  (0 < C -> size s = C ->
   forall x, resident (insert s [x]) = drop 1 (resident s) ++ [x]).
Proof.
  intros s history.
  assert (reached C history s) as Hs.
  { subst s history. rewrite insert_paths.
    apply (reached_foldl C (concat paths) [] (empty C)), reached_empty. }
  split; [|split].
  - unfold size. by destruct Hs.
  - by apply resident_reached.
  - intros HC Hsize x. unfold size in Hsize.
    rewrite (reached_count _ _ _ Hs) in Hsize.
    rewrite (resident_reached C history s Hs).
    rewrite (resident_reached C (history ++ [x]) (insert s [x]))
      by (by apply reached_write).
    rewrite length_app, drop_drop. cbn [length].
    replace (length history + 1 - C) with (length history - C + 1) by lia.
    rewrite drop_app_le by lia. done.
Qed.

End Store.

Arguments store : clear implicits.

(** The end-to-end scenario of the specification: capacity 5, three one-step
    paths, then four more transitions. *)
Lemma store_scenario :
  let s3 := foldl insert (empty 5) [[1]; [2]; [3]] in
  let s7 := insert s3 [4; 5; 6; 7] in
  size s3 = 3 /\ size s7 = 5 /\ resident s3 = [1; 2; 3] /\
  resident s7 = [3; 4; 5; 6; 7].
Proof. repeat split; reflexivity. Qed.

Lemma ring_semantics_witness :
  resident (insert (foldl insert (empty 2) [[1]; [2; 3]]) [4]) =
    drop 1 (resident (foldl insert (empty 2) [[1]; [2; 3]])) ++ [4].
Proof.
  destruct (ring_semantics 2 [[1]; [2; 3]]) as (_ & _ & Hevict).
  apply Hevict; [lia|reflexivity].
Defined.

End TransitionStore.

(** * More of [utils.py]

    The modules below cover the functions of [utils.py] that the
    specification does not speak of, and further properties of the functions
    above, read off the source. *)

(** ** Prefixed keys: [add_prefix], [add_dict] *)

Module Prefixes.

Import PyDict.

Section Prefixed.

Context {V : Type}.

(** [add_prefix(log_dict, prefix, divider)]: the loop over
    [log_dict.items()], assigning into the new dict [with_prefix]. *)
Definition add_prefix (log_dict : list (string * V)) (prefix divider : string)
    : list (string * V) :=
  foldl (fun with_prefix kv => setitem with_prefix ((prefix +:+ divider) +:+ kv.1) kv.2)
    [] log_dict.

(** [prefix.endswith("/")] *)
Fixpoint endswith_slash (prefix : string) : bool :=
  match prefix with
  | "" => false
  | "/" => true
  | String _ rest => endswith_slash rest
  end.

(** The first lines of [add_dict]: a prefix that is not empty gets its
    final ["/"]. *)
Definition slashed (prefix : string) : string :=
  match prefix with
  | "" => ""
  | _ => if endswith_slash prefix then prefix else prefix +:+ "/"
  end.

(** The loop of [add_dict], over [new.keys()]; [None] is the [KeyError] of
    [new[key]]. *)
Fixpoint add_dict_loop (keys : list string) (orig new : list (string * V))
    (prefix : string) : option (list (string * V)) :=
  match keys with
  | [] => Some orig
  | key :: rest =>
      v ← getitem new key;
      add_dict_loop rest (setitem orig (prefix +:+ key) v) new prefix
  end.

(** The second argument of a call [add_dict(orig, new, prefix)]: another
    dict object than [orig], or the dict [orig] itself. *)
Inductive second :=
  | Another (new : list (string * V))
  | Itself.

(** The loop of [add_dict] when [new] is the dict [orig] itself: the
    iterator walks the items of the dict [d] that the loop assigns into, and
    raises [RuntimeError] ([None]) when it finds that the dict no longer has
    the [used] items it had at the start.  [i] is the place of the iterator
    and [todo] counts the items from there on. *)
Fixpoint add_dict_itself (todo used i : nat) (d : list (string * V))
    (prefix : string) : option (list (string * V)) :=
  if decide (length d = used) then
    match todo, d !! i with
    | S todo, Some (key, _) =>
        v ← getitem d key;
        add_dict_itself todo used (S i) (setitem d (prefix +:+ key) v) prefix
    | _, _ => Some d
    end
  else None.

(** [add_dict(orig, new, prefix)]: the dict [orig] after the call, [None]
    when the call raises. *)
Definition add_dict (orig : list (string * V)) (new : second) (prefix : string)
    : option (list (string * V)) :=
  match new with
  | Another new => add_dict_loop new.*1 orig new (slashed prefix)
  | Itself => add_dict_itself (length orig) (length orig) 0 orig (slashed prefix)
  end.

(** The item [add_prefix] makes of an item. *)
Definition prefixed (prefix divider : string) (kv : string * V) : string * V :=
  ((prefix +:+ divider) +:+ kv.1, kv.2).

Lemma append_assoc (a b c : string) : (a +:+ b) +:+ c = a +:+ (b +:+ c).
Proof.
  induction a as [|x a IH]; [done|].
  change (String x ((a +:+ b) +:+ c) = String x (a +:+ (b +:+ c))).
  by rewrite IH.
Qed.

Lemma getitem_elem (d : list (string * V)) k v :
  NoDup d.*1 -> (k, v) ∈ d -> getitem d k = Some v.
Proof.
  induction d as [|[k' v'] rest IH]; cbn; intros Hnd Hin.
  - by apply elem_of_nil in Hin.
  - apply NoDup_cons in Hnd as [Hfresh Hnd].
    apply elem_of_cons in Hin as [[= -> ->]|Hin].
    + by rewrite decide_True.
    + rewrite decide_False; [by apply IH|].
      intros ->. apply Hfresh. by apply (list_elem_of_fmap_2 fst) in Hin.
Qed.

Lemma setitem_same (d : list (string * V)) k v :
  getitem d k = Some v -> setitem d k v = d.
Proof.
  induction d as [|[k' v'] rest IH]; cbn; [done|].
  destruct (decide (k' = k)) as [->|Hne].
  - by intros [= ->].
  - intros H. by rewrite IH.
Qed.

(** The loop of [add_prefix] from any dict built so far, when the keys to
    come are new to it. *)
Lemma add_prefix_from prefix divider (d acc : list (string * V)) :
  NoDup d.*1 ->
  (forall k, k ∈ d.*1 -> (prefix +:+ divider) +:+ k ∉ acc.*1) ->
  foldl (fun with_prefix kv =>
           setitem with_prefix ((prefix +:+ divider) +:+ kv.1) kv.2) acc d =
    acc ++ (prefixed prefix divider <$> d).
Proof.
  revert acc. induction d as [|[k v] rest IH]; intros acc Hnd Hfresh; cbn.
  - by rewrite app_nil_r.
  - apply NoDup_cons in Hnd as [Hk Hnd].
    rewrite setitem_fresh by (apply Hfresh; left).
    rewrite IH; [by rewrite <- app_assoc|done|].
    intros k' Hk'. rewrite fmap_app, elem_of_app. intros [Hin|Hin].
    + apply (Hfresh k'); [by right|done].
    + cbn in Hin. apply list_elem_of_singleton in Hin.
      apply (inj (String.append _)) in Hin as ->. done.
Qed.

Lemma prefixed_keys_NoDup prefix divider (d : list (string * V)) :
  NoDup d.*1 -> NoDup (prefixed prefix divider <$> d).*1.
Proof.
  intros Hnd. rewrite <- list_fmap_compose.
  replace (fst ∘ prefixed prefix divider)
    with (String.append (prefix +:+ divider) ∘ (fst : string * V -> string)) by done.
  rewrite list_fmap_compose. apply NoDup_fmap_2; [apply _|done].
Qed.

Lemma add_prefix_fmap (log_dict : list (string * V)) prefix divider :
  NoDup log_dict.*1 ->
  add_prefix log_dict prefix divider = prefixed prefix divider <$> log_dict.
Proof.
  intros Hnd. unfold add_prefix. rewrite add_prefix_from; [done..|].
  intros k _. apply not_elem_of_nil.
Qed.

(** X1. [add_prefix] returns a dict with one item for each item of
    [log_dict], in the same order and with the same value, its key being
    [prefix + divider + key]; looking up a prefixed key gives what the key
    gave in [log_dict]. *)
Theorem add_prefix_items (log_dict : list (string * V)) prefix divider :
  NoDup log_dict.*1 ->
  add_prefix log_dict prefix divider = prefixed prefix divider <$> log_dict /\
  forall key,
    getitem (add_prefix log_dict prefix divider) ((prefix +:+ divider) +:+ key) =
      getitem log_dict key.
Proof.
  intros Hnd. pose proof (add_prefix_fmap log_dict prefix divider Hnd) as Heq.
  split; [exact Heq|]. intros key. rewrite Heq. clear Heq Hnd.
  induction log_dict as [|[k v] rest IH]; cbn; [done|].
  destruct (decide (k = key)) as [->|Hne].
  - by rewrite decide_True.
  - rewrite decide_False; [done|]. intros H. apply Hne.
    by apply (inj (String.append _)) in H.
Qed.

(** X2. Prefixing twice is prefixing once with the two prefixes put
    together: [add_prefix(add_prefix(d, p1, d1), p2, d2)] equals
    [add_prefix(d, p2 + d2 + p1, d1)]. *)
Theorem add_prefix_twice (d : list (string * V)) p1 d1 p2 d2 :
  NoDup d.*1 ->
  add_prefix (add_prefix d p1 d1) p2 d2 = add_prefix d ((p2 +:+ d2) +:+ p1) d1.
Proof.
  intros Hnd.
  rewrite (add_prefix_fmap d p1 d1 Hnd).
  rewrite (add_prefix_fmap d ((p2 +:+ d2) +:+ p1) d1 Hnd).
  rewrite (add_prefix_fmap (prefixed p1 d1 <$> d) p2 d2)
    by (by apply prefixed_keys_NoDup).
  rewrite <- list_fmap_compose. apply list_fmap_ext. intros _ [k v] _.
  unfold prefixed. cbn. f_equal. by rewrite !append_assoc.
Qed.

(** *** [add_dict] *)

Lemma add_dict_loop_spec keys (new : list (string * V)) prefix :
  forall orig, (forall k, k ∈ keys -> is_Some (getitem new k)) ->
  exists orig',
    add_dict_loop keys orig new prefix = Some orig' /\
    (forall k, k ∈ keys -> getitem orig' (prefix +:+ k) = getitem new k) /\
    (forall k', (forall k, k ∈ keys -> k' <> prefix +:+ k) ->
       getitem orig' k' = getitem orig k').
Proof.
  induction keys as [|key rest IH]; intros orig Hkeys; cbn.
  - exists orig. split_and!; [done| |done]. intros k Hk. by apply elem_of_nil in Hk.
  - destruct (Hkeys key) as [v Hv]; [left|]. rewrite Hv. cbn.
    destruct (IH (setitem orig (prefix +:+ key) v)) as (orig' & Hrun & Hin & Hout).
    { intros k Hk. apply Hkeys. by right. }
    exists orig'. split_and!; [done| |].
    + intros k [->|Hk]%elem_of_cons; [|by apply Hin].
      destruct (decide (key ∈ rest)) as [Hr|Hr]; [by apply Hin|].
      rewrite Hout, getitem_setitem, decide_True, Hv; [done..|].
      intros k Hk H. apply (inj (String.append _)) in H as ->. done.
    + intros k' Hk'. rewrite Hout by (intros k Hk; apply Hk'; by right).
      rewrite getitem_setitem, decide_False; [done|].
      intros <-. by apply (Hk' key); [left|].
Qed.

Lemma getitem_is_Some (d : list (string * V)) k :
  k ∈ d.*1 -> is_Some (getitem d k).
Proof.
  intros Hk. destruct (getitem d k) eqn:E; [by eexists|].
  by apply getitem_None in E.
Qed.

(** X3. When [new] is another dict object than [orig],
    [add_dict(orig, new, prefix)] does not raise; afterwards every key of
    [new] is found in [orig] under the prefix (with its final ["/"]
    added when it lacked one) with the value it has in [new], overwriting
    what was there, and every other key of [orig] is as before. *)
Theorem add_dict_spec (orig new : list (string * V)) prefix :
  exists orig',
    add_dict orig (Another new) prefix = Some orig' /\
    (forall key v, getitem new key = Some v ->
       getitem orig' (slashed prefix +:+ key) = Some v) /\
    (forall key', (forall key, key ∈ new.*1 -> key' <> slashed prefix +:+ key) ->
       getitem orig' key' = getitem orig key').
Proof.
  destruct (add_dict_loop_spec new.*1 new (slashed prefix) orig)
    as (orig' & Hrun & Hin & Hout); [apply getitem_is_Some|].
  exists orig'. split_and!; [done| |done].
  intros key v Hv. rewrite Hin, Hv; [done|].
  destruct (decide (key ∈ new.*1)) as [|Hn]; [done|].
  apply getitem_None in Hn. congruence.
Qed.

Lemma add_dict_loop_again keys (new : list (string * V)) prefix orig :
  (forall k, k ∈ keys ->
     is_Some (getitem new k) /\ getitem orig (prefix +:+ k) = getitem new k) ->
  add_dict_loop keys orig new prefix = Some orig.
Proof.
  induction keys as [|key rest IH]; intros Hkeys; cbn; [done|].
  destruct (Hkeys key) as [[v Hv] Hsame]; [left|]. rewrite Hv. cbn.
  rewrite setitem_same by congruence. apply IH.
  intros k Hk. apply Hkeys. by right.
Qed.

(** X4. With another dict object [new] than [orig], [add_dict] is
    idempotent: a second call with the same arguments leaves [orig] as the
    first call left it. *)
Theorem add_dict_idempotent (orig new : list (string * V)) prefix :
  exists orig',
    add_dict orig (Another new) prefix = Some orig' /\
    add_dict orig' (Another new) prefix = Some orig'.
Proof.
  destruct (add_dict_loop_spec new.*1 new (slashed prefix) orig)
    as (orig' & Hrun & Hin & _); [apply getitem_is_Some|].
  exists orig'. split; [done|]. apply add_dict_loop_again.
  intros k Hk. split; [by apply getitem_is_Some|by apply Hin].
Qed.

Lemma add_dict_loop_items (new : list (string * V)) prefix items :
  forall acc, (forall kv, kv ∈ items -> getitem new kv.1 = Some kv.2) ->
  add_dict_loop items.*1 acc new prefix =
    Some (foldl (fun a kv => setitem a (prefix +:+ kv.1) kv.2) acc items).
Proof.
  induction items as [|[k v] rest IH]; intros acc Hitems; cbn; [done|].
  assert (getitem new k = Some v) as -> by (apply (Hitems (k, v)); left).
  cbn. apply IH.
  intros kv Hkv. apply Hitems. by right.
Qed.

(** X5. Into an empty dict, [add_dict] with a prefix that is not empty and
    has no final ["/"] builds the dict [add_prefix] builds with the divider
    ["/"]. *)
Theorem add_dict_as_add_prefix (new : list (string * V)) prefix :
  NoDup new.*1 -> prefix <> "" -> endswith_slash prefix = false ->
  add_dict [] (Another new) prefix = Some (add_prefix new prefix "/").
Proof.
  intros Hnd Hne Hslash. unfold add_dict, add_prefix, slashed.
  destruct prefix as [|c prefix]; [done|]. rewrite Hslash.
  apply add_dict_loop_items. intros [k v] Hkv. by apply getitem_elem.
Qed.

(** *** [add_dict] of a dict to itself *)

Lemma setitem_keys (d : list (string * V)) key v :
  key ∈ d.*1 -> (setitem d key v).*1 = d.*1.
Proof.
  induction d as [|[k w] rest IH]; cbn; intros Hin.
  - by apply elem_of_nil in Hin.
  - destruct (decide (k = key)) as [->|Hne]; [done|]. cbn. f_equal. apply IH.
    apply elem_of_cons in Hin as [->|Hin]; done.
Qed.

Lemma setitem_length (d : list (string * V)) key v :
  length (setitem d key v) = if decide (key ∈ d.*1) then length d else S (length d).
Proof.
  case_decide as Hin.
  - by rewrite <- (length_fmap fst), setitem_keys, length_fmap.
  - rewrite setitem_fresh, length_app by done. cbn. lia.
Qed.

Lemma length_append_string (a b : string) :
  String.length (a +:+ b) = String.length a + String.length b.
Proof.
  induction a as [|c a IH]; [done|].
  change (S (String.length (a +:+ b)) = S (String.length a + String.length b)).
  by rewrite IH.
Qed.

Lemma longest_key (keys : list string) :
  keys <> [] ->
  exists k, k ∈ keys /\ forall k', k' ∈ keys -> String.length k' <= String.length k.
Proof.
  induction keys as [|k keys IH]; [done|]. intros _.
  destruct keys as [|k0 keys].
  - exists k. split; [left|]. by intros k' ->%list_elem_of_singleton.
  - destruct IH as (m & Hm & Hmax); [done|].
    destruct (decide (String.length m <= String.length k)) as [Hle|Hgt].
    + exists k. split; [left|]. intros k' [->|Hin]%elem_of_cons; [done|].
      specialize (Hmax k' Hin). lia.
    + exists m. split; [by right|]. intros k' [->|Hin]%elem_of_cons; [lia|].
      by apply Hmax.
Qed.

(** When the loop ends without raising, the prefixed key of every item it
    went over was in the dict already. *)
Lemma add_dict_itself_keys todo used prefix : forall i (d d' : list (string * V)),
  add_dict_itself todo used i d prefix = Some d' ->
  forall j k, i <= j < i + todo -> d.*1 !! j = Some k -> prefix +:+ k ∈ d.*1.
Proof.
  induction todo as [|todo IH]; intros i d d' Hrun j k Hj Hk; [lia|].
  cbn [add_dict_itself] in Hrun. case_decide as Hlen; [|done].
  destruct (d !! i) as [[key w]|] eqn:Hi.
  - destruct (getitem d key) as [v|]; [|done]. cbn in Hrun.
    assert (prefix +:+ key ∈ d.*1) as Hin.
    { destruct todo; cbn [add_dict_itself] in Hrun;
        (case_decide as Hlen'; [|done]);
        rewrite setitem_length in Hlen'; case_decide; [done|lia|done|lia]. }
    destruct (decide (j = i)) as [->|Hne].
    + rewrite list_lookup_fmap, Hi in Hk. by injection Hk as <-.
    + rewrite <- (setitem_keys d (prefix +:+ key) v Hin).
      apply (IH (S i) _ d' Hrun j k); [lia|]. by rewrite setitem_keys.
  - apply lookup_ge_None in Hi. rewrite list_lookup_fmap in Hk.
    rewrite lookup_ge_None_2 in Hk by lia. done.
Qed.

Lemma add_dict_itself_plain todo used : forall i (d : list (string * V)),
  length d = used -> add_dict_itself todo used i d "" = Some d.
Proof.
  induction todo as [|todo IH]; intros i d Hlen; cbn [add_dict_itself];
    rewrite decide_True by done; [done|].
  destruct (d !! i) as [[key w]|] eqn:Hi; [|done].
  destruct (getitem_is_Some d key) as [v Hv].
  { apply list_elem_of_lookup_2 in Hi. by apply (list_elem_of_fmap_2 fst) in Hi. }
  rewrite Hv. cbn [mbind option_bind].
  change ("" +:+ key) with key. rewrite setitem_same by done. by apply IH.
Qed.

Lemma slashed_not_empty prefix : prefix <> "" -> 0 < String.length (slashed prefix).
Proof.
  destruct prefix as [|c prefix]; [done|]. intros _. unfold slashed.
  destruct (endswith_slash (String c prefix)); [cbn; lia|].
  rewrite length_append_string. cbn. lia.
Qed.

(** X23. A dict added to itself, [add_dict(d, d, prefix)]: with a prefix
    that is not empty and a dict that is not empty the call raises (the
    iterator finds the dict grown under it); with the empty prefix, or on the
    empty dict, it returns and leaves the dict as it is. *)
Theorem add_dict_itself_spec (d : list (string * V)) prefix :
  add_dict d Itself prefix =
    match d, prefix with
    | [], _ | _, "" => Some d
    | _, _ => None
    end.
Proof.
  destruct d as [|kv d]; [by destruct prefix|].
  destruct prefix as [|c prefix]; [by apply add_dict_itself_plain|].
  cbn [add_dict].
  destruct (add_dict_itself _ _ _ _ _) as [d'|] eqn:Hrun; [exfalso|done].
  destruct (longest_key (kv :: d).*1) as (k & Hk & Hmax); [done|].
  apply list_elem_of_lookup in Hk as [j Hj].
  pose proof (lookup_lt_Some _ _ _ Hj) as Hlt. rewrite length_fmap in Hlt.
  pose proof (add_dict_itself_keys _ _ _ _ _ _ Hrun j k ltac:(lia) Hj) as Hin.
  specialize (Hmax _ Hin). rewrite length_append_string in Hmax.
  pose proof (slashed_not_empty (String c prefix) ltac:(done)). lia.
Qed.

End Prefixed.

Lemma distinct_keys_two (a b : string) : a <> b -> NoDup [a; b].
Proof.
  intros Hne. apply NoDup_cons. split; [|apply NoDup_singleton].
  by intros ->%list_elem_of_singleton.
Qed.

Lemma add_prefix_items_witness :
  add_prefix [("Loss", 1%Z); ("QF", 2%Z)] "trainer" "/" =
    [("trainer/Loss", 1%Z); ("trainer/QF", 2%Z)].
Proof.
  apply (add_prefix_items [("Loss", 1%Z); ("QF", 2%Z)] "trainer" "/").
  by apply distinct_keys_two.
Defined.

Lemma add_prefix_twice_witness :
  add_prefix (add_prefix [("Loss", 1%Z); ("QF", 2%Z)] "sac" "/") "eval" "/" =
    add_prefix [("Loss", 1%Z); ("QF", 2%Z)] "eval/sac" "/".
Proof.
  apply (add_prefix_twice [("Loss", 1%Z); ("QF", 2%Z)] "sac" "/" "eval" "/").
  by apply distinct_keys_two.
Defined.

Lemma add_dict_as_add_prefix_witness :
  add_dict [] (Another [("Loss", 1%Z); ("QF", 2%Z)]) "eval" =
    Some (add_prefix [("Loss", 1%Z); ("QF", 2%Z)] "eval" "/").
Proof.
  apply (add_dict_as_add_prefix [("Loss", 1%Z); ("QF", 2%Z)] "eval");
    [by apply distinct_keys_two|done|reflexivity].
Defined.

(** The prefix with and without its final ["/"], and an existing key
    overwritten. *)
Example add_dict_overwrites :
  add_dict [("eval/Loss", 9%Z); ("Epoch", 3%Z)] (Another [("Loss", 1%Z)]) "eval" =
    Some [("eval/Loss", 1%Z); ("Epoch", 3%Z)] /\
  add_dict [("eval/Loss", 9%Z); ("Epoch", 3%Z)] (Another [("Loss", 1%Z)]) "eval/" =
    Some [("eval/Loss", 1%Z); ("Epoch", 3%Z)] /\
  add_dict [("Epoch", 3%Z)] (Another [("Loss", 1%Z)]) "" =
    Some [("Epoch", 3%Z); ("Loss", 1%Z)].
Proof. repeat split; reflexivity. Qed.

(** A dict added to itself: the first assignment under a new key is found
    out by the iterator, also when the dict already has the key that the
    first item asks for. *)
Example add_dict_to_itself :
  add_dict [("Loss", 1%Z)] Itself "eval" = None /\
  add_dict [("Loss", 1%Z); ("eval/Loss", 2%Z)] Itself "eval" = None /\
  add_dict [("Loss", 1%Z)] Itself "" = Some [("Loss", 1%Z)].
Proof. repeat split; reflexivity. Qed.

End Prefixes.

(** ** More on [safe_json] and [dict_to_safe_json] *)

Module SafeJsonFacts.

Import SafeJson.

Lemma forallb_elem {A} (f : A -> bool) (l : list A) x :
  forallb f l = true -> x ∈ l -> f x = true.
Proof.
  induction l as [|y l IH]; cbn; intros Hall Hin.
  - by apply elem_of_nil in Hin.
  - apply andb_prop in Hall as [Hy Hl].
    apply elem_of_cons in Hin as [->|Hin]; [done|by apply IH].
Qed.

Lemma converted_safe str item : safe_json item = true -> converted str item = item.
Proof. intros H. rewrite converted_cases. by rewrite H. Qed.

(** X6. [safe_json] is sound for [json.dumps] and stricter than it: what it
    accepts is JSON-serializable, and it rejects every string, which
    [json.dumps] accepts. *)
Theorem safe_json_sound :
  (forall data, safe_json data = true -> json_serializable data = true) /\
  (forall s, safe_json (PyStr s) = false /\ json_serializable (PyStr s) = true).
Proof.
  split.
  - intros data. apply safe_json_serializable.
  - intros s. split; reflexivity.
Qed.

(** X7. A dict whose values all pass [safe_json] comes back from
    [dict_to_safe_json] item for item as it went in. *)
Theorem dict_to_safe_json_safe str (d : list (key * value)) :
  Forall (fun kv => safe_json kv.2 = true) d -> dict_to_safe_json str d = d.
Proof.
  induction 1 as [|[k item] rest Hitem _ IH]; cbn; [done|].
  cbn in Hitem. by rewrite converted_safe, IH.
Qed.

Lemma dict_to_safe_json_safe_witness :
  dict_to_safe_json (fun _ => "")
    [(KeyStr "tau", PyFloat (1 # 100)); (KeyStr "sizes", PyList [PyInt 64; PyInt 64])] =
    [(KeyStr "tau", PyFloat (1 # 100)); (KeyStr "sizes", PyList [PyInt 64; PyInt 64])].
Proof. apply dict_to_safe_json_safe. repeat constructor. Defined.

(** X8. A list or tuple is never converted item by item: when one of its
    items fails [safe_json], a string or a dict with an object in it for
    instance, the whole list is replaced by its string form. *)
Theorem sequence_with_unsafe_item str items x :
  x ∈ items -> safe_json x = false ->
  converted str (PyList items) = PyStr (str (PyList items)) /\
  converted str (PyTuple items) = PyStr (str (PyTuple items)).
Proof.
  intros Hin Hx.
  assert (forallb safe_json items = false) as Hall.
  { destruct (forallb safe_json items) eqn:E; [|done].
    by rewrite (forallb_elem _ _ _ E Hin) in Hx. }
  split; rewrite converted_cases; cbn [safe_json]; by rewrite Hall.
Qed.

Lemma sequence_with_unsafe_item_witness :
  converted (fun _ => "['relu', 'tanh']") (PyList [PyStr "relu"; PyStr "tanh"]) =
    PyStr "['relu', 'tanh']".
Proof.
  apply (sequence_with_unsafe_item (fun _ => "['relu', 'tanh']")
           [PyStr "relu"; PyStr "tanh"] (PyStr "relu")); [left|reflexivity].
Defined.

Section Idempotent.

Variable str : value -> string.

(** Python's [str] of a string is the string. *)
Hypothesis str_of_str : forall s, str (PyStr s) = s.

Lemma converted_twice item :
  converted str (converted str item) = converted str item.
Proof.
  induction item as [| | | | |items IH|items IH|items IH|]
    using value_nested_ind; try reflexivity.
  - cbn. by rewrite str_of_str.
  - rewrite (converted_cases str (PyTuple items)).
    destruct (safe_json (PyTuple items)) eqn:E; [by apply converted_safe|].
    cbn. by rewrite str_of_str.
  - rewrite (converted_cases str (PyList items)).
    destruct (safe_json (PyList items)) eqn:E; [by apply converted_safe|].
    cbn. by rewrite str_of_str.
  - rewrite (converted_cases str (PyDict items)).
    destruct (safe_json (PyDict items)) eqn:E; [by apply converted_safe|].
    rewrite converted_cases.
    destruct (safe_json (PyDict (dict_to_safe_json str items))); [done|].
    f_equal. clear E. induction IH as [|[k i] rest Hi _ IHrest]; cbn; [done|].
    cbn in Hi. by rewrite Hi, IHrest.
  - cbn. by rewrite str_of_str.
Qed.

(** X9. [dict_to_safe_json] is idempotent: converting its result again
    changes nothing. *)
Theorem dict_to_safe_json_idempotent (d : list (key * value)) :
  dict_to_safe_json str (dict_to_safe_json str d) = dict_to_safe_json str d.
Proof.
  induction d as [|[k item] rest IH]; cbn; [done|].
  by rewrite converted_twice, IH.
Qed.

End Idempotent.

Lemma dict_to_safe_json_idempotent_witness :
  let str := fun item => match item with PyStr s => s | _ => "<object>" end in
  let d := [(KeyStr "env", PyObject "Pendulum"); (KeyInt 1, PyDict [(KeyInt 2, PyStr "a")])] in
  dict_to_safe_json str (dict_to_safe_json str d) = dict_to_safe_json str d.
Proof.
  intros str d. apply (dict_to_safe_json_idempotent str). done.
Defined.

End SafeJsonFacts.

(** ** More on [soft_update] *)

Module SoftUpdateFacts.

Import SoftUpdate.

(** X11. [soft_update] pairs the parameters by position and stops at the
    shorter network: the call is the call on the first parameters of each,
    as many as the shorter has, and the parameters after them are neither
    read nor written. *)
Theorem soft_update_truncates (source target : module) tau st :
  soft_update source target tau st =
    soft_update (take (length target) source) (take (length source) target) tau st.
Proof.
  unfold soft_update. f_equal.
  revert source. induction target as [|t target IH]; intros [|s source]; cbn;
    [done..|]. by rewrite <- IH.
Qed.

End SoftUpdateFacts.

(** ** More on [cat_dict] *)

Module CatDictFacts.

Import PyDict CatDict.

(** The dict a successful iteration leaves. *)
Lemma cat_dict_step_dict (new orig : dict) (h : heap) key orig1 h1 :
  cat_dict_step new (orig, h) key = Some (orig1, h1) ->
  orig1 = if contains orig key then orig
          else setitem orig key (ListRef (length h)).
Proof.
  unfold cat_dict_step. cbn. destruct (getitem new key) as [v|]; [|done]. cbn.
  destruct (contains orig key); [|by intros [= <- _]].
  destruct (getitem orig key) as [[z|l]|]; try done.
  destruct (append h l v); [|done]. by intros [= <- _].
Qed.

Lemma cat_dict_loop_fails (new : dict) key z keys :
  forall (orig : dict) (h : heap),
    key ∈ keys -> getitem orig key = Some (Other z) ->
    cat_dict_loop keys new (orig, h) = None.
Proof.
  induction keys as [|k rest IH]; intros orig h Hin Hother.
  - by apply elem_of_nil in Hin.
  - cbn. destruct (cat_dict_step new (orig, h) k) as [[orig1 h1]|] eqn:Hstep;
      [|done]. cbn.
    pose proof (cat_dict_step_dict _ _ _ _ _ _ Hstep) as Horig1.
    destruct (decide (k = key)) as [->|Hne].
    + exfalso. unfold cat_dict_step in Hstep. cbn in Hstep.
      destruct (getitem new key); [|done]. cbn in Hstep.
      assert (contains orig key = true) as Hc
        by (apply contains_true; by eexists).
      by rewrite Hc, Hother in Hstep.
    + apply elem_of_cons in Hin as [->|Hin]; [done|].
      apply IH; [done|]. rewrite Horig1.
      destruct (contains orig k); [done|].
      by rewrite getitem_setitem, decide_False.
Qed.

(** X13. [cat_dict] raises when a key of [new] is in [orig] with a value
    that is not a list (it has no [append]). *)
Theorem cat_dict_non_list (orig new : dict) (h : heap) key z :
  key ∈ new.*1 -> getitem orig key = Some (Other z) ->
  cat_dict orig new h = None.
Proof. intros Hin Hother. unfold cat_dict. by eapply cat_dict_loop_fails. Qed.

Lemma cat_dict_non_list_witness :
  cat_dict [("epoch", Other 3)] [("loss", Other 1); ("epoch", Other 4)] [] = None.
Proof.
  apply (cat_dict_non_list _ _ _ "epoch" 3); [right; left|reflexivity].
Defined.

(** The keys of [keys] that [orig] does not have yet. *)
Definition absent (orig : dict) (keys : list string) : list string :=
  List.filter (fun k => negb (contains orig k)) keys.

Lemma absent_cons (orig : dict) k rest :
  absent orig (k :: rest) =
    if contains orig k then absent orig rest else k :: absent orig rest.
Proof. unfold absent. cbn. by destruct (contains orig k). Qed.

Lemma absent_ext (orig orig1 : dict) keys :
  (forall k, k ∈ keys -> contains orig1 k = contains orig k) ->
  absent orig1 keys = absent orig keys.
Proof.
  induction keys as [|k rest IH]; intros Hext; [done|].
  rewrite !absent_cons, Hext by left. rewrite IH; [done|].
  intros k' Hk'. apply Hext. by right.
Qed.

Lemma contains_setitem (orig : dict) key v k :
  key <> k -> contains (setitem orig key v) k = contains orig k.
Proof.
  intros Hne. unfold contains. by rewrite getitem_setitem, decide_False.
Qed.

Lemma cat_dict_loop_keys (new : dict) keys :
  forall (orig : dict) (h : heap) orig' h',
    NoDup keys ->
    cat_dict_loop keys new (orig, h) = Some (orig', h') ->
    orig'.*1 = orig.*1 ++ absent orig keys.
Proof.
  induction keys as [|k rest IH]; intros orig h orig' h' Hnd Hrun; cbn in Hrun.
  - injection Hrun as <- _. unfold absent. cbn. by rewrite app_nil_r.
  - apply NoDup_cons in Hnd as [Hk Hnd].
    destruct (cat_dict_step new (orig, h) k) as [[orig1 h1]|] eqn:Hstep;
      [|done]. cbn in Hrun.
    pose proof (cat_dict_step_dict _ _ _ _ _ _ Hstep) as Horig1.
    rewrite (IH _ _ _ _ Hnd Hrun), absent_cons.
    destruct (contains orig k) eqn:Hc; subst orig1; [done|].
    apply contains_false, getitem_None in Hc.
    rewrite setitem_fresh, fmap_app, <- app_assoc by done. cbn. do 2 f_equal.
    apply absent_ext. intros k' Hk'. rewrite <- setitem_fresh by done.
    apply contains_setitem. by intros ->.
Qed.

(** X14. [cat_dict] keeps the keys of [orig] in their places and adds the
    keys of [new] that [orig] did not have at the end, in the order of
    [new]. *)
Theorem cat_dict_key_order (orig new : dict) (h : heap) :
  is_dict new -> lists_only orig h -> unshared orig ->
  exists orig' h',
    cat_dict orig new h = Some (orig', h') /\
    orig'.*1 = orig.*1 ++ absent orig new.*1.
Proof.
  intros Hnew Hlists Hun.
  destruct (cat_dict_loop_spec new new.*1 orig h Hnew)
    as (orig' & h' & Hrun & _); [|done|done|].
  { intros key Hkey. destruct (getitem new key) eqn:E; [by eexists|].
    by apply getitem_None in E. }
  exists orig', h'. split; [exact Hrun|].
  by apply (cat_dict_loop_keys new new.*1 orig h orig' h').
Qed.

Lemma cat_dict_key_order_witness :
  exists orig' h',
    cat_dict [("loss", ListRef 0)] [("q", Other 5); ("loss", Other 2); ("r", Other 1)]
      [[Other 1]] = Some (orig', h') /\
    orig'.*1 = ["loss"; "q"; "r"].
Proof.
  apply (cat_dict_key_order [("loss", ListRef 0)]
           [("q", Other 5); ("loss", Other 2); ("r", Other 1)] [[Other 1]]).
  - unfold is_dict. cbn. repeat (apply NoDup_cons; split);
      [| |apply not_elem_of_nil|apply NoDup_nil_2];
      rewrite ?not_elem_of_cons; split_and?; try done; apply not_elem_of_nil.
  - intros key x. cbn. case_decide; [|done]. intros [= <-].
    exists 0%nat. split; [done|by eexists].
  - intros k1 k2 l. cbn. repeat case_decide; try done. congruence.
Defined.

End CatDictFacts.

(** ** More on [create_stats_ordered_dict]: tuples, lists of arrays, one
    entry *)

Module StatsFacts.

Import PyDict Stats.

(** [d.update(sub)] with keys that are new to [d] puts the items of [sub]
    after those of [d]. *)
Lemma update_fresh (d sub : list (string * R)) :
  NoDup sub.*1 -> (forall k, k ∈ sub.*1 -> k ∉ d.*1) -> update d sub = d ++ sub.
Proof.
  unfold update. revert d.
  induction sub as [|[k v] rest IH]; intros d Hnd Hfresh; cbn.
  - by rewrite app_nil_r.
  - apply NoDup_cons in Hnd as [Hk Hnd].
    rewrite setitem_fresh by (apply Hfresh; left).
    rewrite IH; [by rewrite <- app_assoc|done|].
    intros k' Hk'. rewrite fmap_app, elem_of_app. intros [Hin|Hin].
    + apply (Hfresh k'); [by right|done].
    + cbn in Hin. apply list_elem_of_singleton in Hin. by subst.
Qed.

(** The loop of the tuple branch, from the item [number] on. *)
Fixpoint tuple_loop (name : string) (number : nat) (items : list pydata)
    (ordered_dict : list (string * R)) : option (list (string * R)) :=
  match items with
  | [] => Some ordered_dict
  | d :: rest =>
      match create_stats_ordered_dict (indexed name number) d None true false with
      | Some sub_dict => tuple_loop name (S number) rest (update ordered_dict sub_dict)
      | None => None
      end
  end.

(** The name the function forms from the prefix. *)
Definition full_name (stat_prefix : option string) (name : string) : string :=
  match stat_prefix with
  | Some prefix => prefix +:+ name
  | None => name
  end.

Lemma tuple_loop_fix name items number ordered_dict :
  (fix loop (number : nat) (items : list pydata) (ordered_dict : list (string * R))
     : option (list (string * R)) :=
     match items with
     | [] => Some ordered_dict
     | d :: rest =>
         match create_stats_ordered_dict (indexed name number) d None true false with
         | Some sub_dict => loop (S number) rest (update ordered_dict sub_dict)
         | None => None
         end
     end) number items ordered_dict =
    tuple_loop name number items ordered_dict.
Proof.
  revert number ordered_dict.
  induction items as [|d items IH]; intros number ordered_dict; [done|].
  cbn [tuple_loop].
  destruct (create_stats_ordered_dict (indexed name number) d None true false)
    as [sub_dict|]; [apply IH|done].
Qed.

Lemma create_tuple name items stat_prefix always_show_all_stats exclude_max_min :
  create_stats_ordered_dict name (Tuple items) stat_prefix
    always_show_all_stats exclude_max_min =
    tuple_loop (full_name stat_prefix name) 0 items [].
Proof.
  destruct items as [|d items]; [by destruct stat_prefix|].
  destruct stat_prefix as [prefix|].
  - exact (tuple_loop_fix (prefix +:+ name) (d :: items) 0%nat []).
  - exact (tuple_loop_fix name (d :: items) 0%nat []).
Qed.

(** *** The digits of a number hold no space *)

(** The character [" "]. *)
Definition space : Ascii.ascii :=
  Ascii.Ascii false false false false false true false false.

Fixpoint no_space (s : string) : bool :=
  match s with
  | "" => true
  | String c rest => negb (Ascii.eqb c space) && no_space rest
  end.

(** A suffix the function puts after a name: nothing, or a space and a
    word. *)
Definition spaced (s : string) : Prop :=
  s = "" \/ exists rest, s = String space rest.

Lemma pretty_N_char_no_space x : Ascii.eqb (pretty_N_char x) space = false.
Proof. unfold pretty_N_char. by repeat case_match. Qed.

Lemma pretty_N_go_no_space x s :
  no_space s = true -> no_space (pretty_N_go x s) = true.
Proof.
  revert s. induction (N.lt_wf_0 x) as [x _ IH]; intros s Hs.
  destruct (decide (x = 0)%N) as [->|Hx].
  - by rewrite pretty_N_go_0.
  - rewrite pretty_N_go_step by lia. apply IH.
    + apply N.div_lt; lia.
    + cbn. by rewrite pretty_N_char_no_space, Hs.
Qed.

Lemma pretty_nat_no_space (n : nat) : no_space (pretty n) = true.
Proof.
  unfold pretty, pretty_nat, pretty, pretty_N. case_decide; [done|].
  by apply pretty_N_go_no_space.
Qed.

Lemma spaced_inj (d1 d2 s t : string) :
  no_space d1 = true -> no_space d2 = true -> spaced s -> spaced t ->
  d1 +:+ s = d2 +:+ t -> d1 = d2 /\ s = t.
Proof.
  revert d2. induction d1 as [|c d1 IH]; intros [|c' d2] H1 H2 Hs Ht Heq.
  - done.
  - exfalso. cbn in H2. apply andb_prop in H2 as [Hc _].
    change (s = String c' (d2 +:+ t)) in Heq.
    destruct Hs as [->|[rest ->]]; [done|]. injection Heq as <- _. done.
  - exfalso. cbn in H1. apply andb_prop in H1 as [Hc _].
    change (String c (d1 +:+ s) = t) in Heq.
    destruct Ht as [->|[rest ->]]; [done|]. injection Heq as -> _. done.
  - cbn in H1, H2. apply andb_prop in H1 as [_ H1]. apply andb_prop in H2 as [_ H2].
    change (String c (d1 +:+ s) = String c' (d2 +:+ t)) in Heq.
    injection Heq as -> Heq. destruct (IH d2 H1 H2 Hs Ht Heq) as [-> ->]. done.
Qed.

(** Two keys under numbered names are the same only for the same number and
    the same suffix. *)
Lemma indexed_inj name i j s t :
  spaced s -> spaced t ->
  indexed name i +:+ s = indexed name j +:+ t -> i = j /\ s = t.
Proof.
  intros Hs Ht. unfold indexed. rewrite !Prefixes.append_assoc.
  intros H. apply (inj (String.append name)) in H.
  apply (inj (String.append "_")) in H.
  apply spaced_inj in H as [H ->]; [|apply pretty_nat_no_space..|done|done].
  by apply (inj pretty) in H.
Qed.

(** *** A tuple of numbers and arrays *)

(** What an item of the tuple gives under the name [key]: a number its one
    entry, an array its four statistics. *)
Definition entries (key : string) (d : pydata) : list (string * R) :=
  match d with
  | Number x => [(key, x)]
  | NdArray xs => mean_std key xs ++ max_min key xs
  | _ => []
  end.

Definition number_or_array (d : pydata) : Prop :=
  match d with
  | Number _ => True
  | NdArray xs => xs <> []
  | _ => False
  end.

Lemma append_empty (s : string) : s +:+ "" = s.
Proof.
  induction s as [|c s IH]; [done|].
  change (String c (s +:+ "") = String c s). by rewrite IH.
Qed.

Lemma create_entries key d :
  number_or_array d ->
  create_stats_ordered_dict key d None true false = Some (entries key d).
Proof.
  destruct d as [x|items|items|xs|shape xs]; cbn [number_or_array]; intros H;
    try done.
  destruct xs as [|x xs]; [done|]. cbn [create_stats_ordered_dict entries].
  by rewrite of_array_all_stats, stats_entries.
Qed.

Lemma entries_keys key d k :
  k ∈ (entries key d).*1 -> exists s, spaced s /\ k = key +:+ s.
Proof.
  destruct d as [x|items|items|xs|shape xs]; cbn;
    rewrite ?elem_of_cons, ?elem_of_nil; intros H.
  - destruct H as [->|[]]. exists "". split; [by left|by rewrite append_empty].
  - done.
  - done.
  - destruct H as [->|[->|[->|[->|[]]]]]; eexists; (split; [|reflexivity]);
      right; eexists; reflexivity.
  - done.
Qed.

Lemma entries_NoDup key d : NoDup (entries key d).*1.
Proof.
  destruct d as [x|items|items|xs|shape xs]; cbn; [| | | |apply NoDup_nil_2].
  - apply NoDup_singleton.
  - apply NoDup_nil_2.
  - apply NoDup_nil_2.
  - change [key +:+ " Mean"; key +:+ " Std"; key +:+ " Max"; key +:+ " Min"]
      with (String.append key <$> [" Mean"; " Std"; " Max"; " Min"]).
    apply NoDup_fmap_2; [apply _|].
    repeat (apply NoDup_cons; split;
            [rewrite ?elem_of_cons, elem_of_nil; intros H;
             repeat (destruct H as [H|H]; [discriminate H|]); done|]).
    apply NoDup_nil_2.
Qed.

Lemma tuple_loop_entries name items number ordered_dict :
  Forall number_or_array items ->
  (forall k, k ∈ ordered_dict.*1 ->
     exists j s, (j < number)%nat /\ spaced s /\ k = indexed name j +:+ s) ->
  tuple_loop name number items ordered_dict =
    Some (ordered_dict ++
          concat (imap (fun i d => entries (indexed name (number + i)) d) items)).
Proof.
  revert number ordered_dict.
  induction items as [|d items IH]; intros number ordered_dict Hitems Hkeys.
  - cbn. by rewrite app_nil_r.
  - apply Forall_cons in Hitems as [Hd Hitems].
    cbn [tuple_loop]. rewrite create_entries by done.
    rewrite update_fresh.
    + rewrite IH; [|done|].
      * rewrite imap_cons. cbn [concat]. rewrite Nat.add_0_r, <- app_assoc.
        do 4 f_equal. apply imap_ext. intros i d' _. cbn. by rewrite Nat.add_succ_r.
      * intros k. rewrite fmap_app, elem_of_app. intros [Hk|Hk].
        -- destruct (Hkeys k Hk) as (j & s & Hj & Hs & ->).
           exists j, s. split; [lia|done].
        -- destruct (entries_keys _ _ _ Hk) as (s & Hs & ->).
           exists number, s. split; [lia|done].
    + apply entries_NoDup.
    + intros k Hk Hin.
      destruct (entries_keys _ _ _ Hk) as (s & Hs & ->).
      destruct (Hkeys _ Hin) as (j & t & Hj & Ht & Heq).
      apply indexed_inj in Heq as [-> _]; [lia|done..].
Qed.

(** X15. For a tuple of numbers and non-empty arrays,
    [create_stats_ordered_dict] returns, item by item and in order, the one
    entry [name_i] of a number and the four entries [name_i Mean],
    [name_i Std], [name_i Max], [name_i Min] of an array, [i] counting from
    0: the prefix is put before the name once, and the two flags of the call
    play no part (an array of one entry still gives four statistics, and
    [exclude_max_min] keeps Max and Min). *)
Theorem stats_of_tuple name items stat_prefix always_show_all_stats exclude_max_min :
  Forall number_or_array items ->
  create_stats_ordered_dict name (Tuple items) stat_prefix
    always_show_all_stats exclude_max_min =
    Some (concat (imap (fun i d => entries (indexed (full_name stat_prefix name) i) d)
                    items)).
Proof.
  intros Hitems. rewrite create_tuple.
  rewrite tuple_loop_entries; [done..|].
  intros k Hk. by apply elem_of_nil in Hk.
Qed.

Lemma stats_of_tuple_witness :
  create_stats_ordered_dict "Returns" (Tuple [Number 2; NdArray [5%R]])
    (Some "eval/") false true =
    Some [("eval/Returns_0", 2%R);
          ("eval/Returns_1 Mean", np_mean [5%R]); ("eval/Returns_1 Std", np_std [5%R]);
          ("eval/Returns_1 Max", np_max [5%R]); ("eval/Returns_1 Min", np_min [5%R])].
Proof.
  apply (stats_of_tuple "Returns" [Number 2; NdArray [5%R]] (Some "eval/") false true).
  repeat constructor. discriminate.
Defined.

(** *** One entry: an array and a list part ways *)

Lemma np_mean_one x : np_mean [x] = x.
Proof. unfold np_mean, np_sum. cbn. field. Qed.

Lemma np_std_one x : np_std [x] = 0%R.
Proof.
  unfold np_std. cbn [fmap list_fmap]. rewrite (np_mean_one x), np_mean_one.
  replace (x - x)%R with 0%R by ring. rewrite Rsqr_0. apply sqrt_0.
Qed.

(** X16. With [always_show_all_stats=False] an array of one entry gives
    the single entry [{name: x}], whereas the list [[x]] of one number still
    gives the four statistics, which are [x], 0, [x] and [x]: the test for a
    single entry asks for an [ndarray], and a list of numbers is never made
    one. *)
Theorem stats_of_one_entry name x stat_prefix exclude_max_min :
  create_stats_ordered_dict name (NdArray [x]) stat_prefix false exclude_max_min =
    Some [(full_name stat_prefix name, x)] /\
  create_stats_ordered_dict name (PyList [Number x]) stat_prefix false false =
    Some [(full_name stat_prefix name +:+ " Mean", x);
          (full_name stat_prefix name +:+ " Std", 0%R);
          (full_name stat_prefix name +:+ " Max", x);
          (full_name stat_prefix name +:+ " Min", x)].
Proof.
  split; [by destruct stat_prefix|].
  transitivity (stats (full_name stat_prefix name) [x] false);
    [by destruct stat_prefix|].
  rewrite stats_entries by done. unfold mean_std, max_min.
  by rewrite np_mean_one, np_std_one.
Qed.

(** *** A list of arrays is its concatenation *)

Lemma forallb_same_shape (item_shape : list nat) (operands : list (list nat * list R)) :
  Forall (fun op => op.1 = item_shape) operands ->
  forallb (fun op : list nat * list R => bool_decide (op.1 = item_shape)) operands = true.
Proof.
  induction 1 as [|op operands Hop _ IH]; [done|].
  cbn [forallb]. by rewrite bool_decide_true, IH.
Qed.

Lemma np_concatenate_arrays xss :
  xss <> [] -> np_concatenate (NdArray <$> xss) = Some (concat xss).
Proof.
  intros Hne. unfold np_concatenate.
  assert (mapM operand (NdArray <$> xss) = Some (pair [] <$> xss)) as ->.
  { clear Hne. induction xss as [|xs xss IH]; [done|]. cbn. by rewrite IH. }
  cbn [mbind option_bind].
  assert (Forall (fun op : list nat * list R => op.1 = []) (pair [] <$> xss)) as Hshape.
  { apply Forall_fmap, Forall_true. done. }
  assert ((pair ([] : list nat) <$> xss).*2 = xss) as Hentries.
  { rewrite <- list_fmap_compose. apply list_fmap_id. }
  destruct (pair ([] : list nat) <$> xss) as [|[item_shape ys] operands] eqn:E.
  - by destruct xss.
  - apply Forall_cons_1 in Hshape as Hhead. destruct Hhead as [Hhead _].
    cbn in Hhead. subst item_shape.
    by rewrite (forallb_same_shape [] _ Hshape), Hentries.
Qed.

(** X17. A list of arrays with at least one entry between them is treated
    as the one array of all their entries, in order, for every name, prefix
    and flags. *)
Theorem stats_of_list_of_arrays name xss stat_prefix always_show_all_stats
    exclude_max_min :
  concat xss <> [] ->
  create_stats_ordered_dict name (PyList (NdArray <$> xss)) stat_prefix
    always_show_all_stats exclude_max_min =
  create_stats_ordered_dict name (NdArray (concat xss)) stat_prefix
    always_show_all_stats exclude_max_min.
Proof.
  intros Hne. destruct xss as [|xs xss]; [done|].
  transitivity
    (xs' ← np_concatenate (NdArray <$> xs :: xss);
     of_array (full_name stat_prefix name) xs' always_show_all_stats exclude_max_min).
  { by destruct stat_prefix. }
  rewrite np_concatenate_arrays by done. cbn [mbind option_bind].
  destruct (concat (xs :: xss)) as [|y ys]; [done|]. by destruct stat_prefix.
Qed.

Lemma stats_of_list_of_arrays_witness :
  create_stats_ordered_dict "Q" (PyList [NdArray [1%R]; NdArray []; NdArray [2%R]])
    None true false =
  create_stats_ordered_dict "Q" (NdArray [1%R; 2%R]) None true false.
Proof.
  apply (stats_of_list_of_arrays "Q" [[1%R]; []; [2%R]] None true false).
  discriminate.
Defined.

End StatsFacts.

(** ** More on batches: the boolean arrays, and [to_numpy] *)

Module TensorFacts.

Import TensorBatch.

#[local] Open Scope Q_scope.

Lemma float_astype_int_bools bs : float (astype_int (Bools bs)) = float (Bools bs).
Proof. cbn. by rewrite <- list_fmap_compose. Qed.

Lemma dtype_after_filter v :
  dtype_is_np_bool (if dtype_is_np_bool v then entry_astype_int v else v) = false.
Proof. by destruct v as [[[bs|zs|qs]|x]|objs]. Qed.

(** X19. The integers [_filter_batch] makes of a boolean array do not show
    in the tensors: [to_tensor_batch] returns what the comprehension gives
    on the items of the batch themselves.  And what [_filter_batch] yields
    holds no boolean array any more, so filtering it again changes
    nothing. *)
Theorem filter_batch_transparent items :
  (exists out, comprehension items = Returns out /\
               to_tensor_batch (Dict items) = Returns (Some out)) /\
  _filter_batch (_filter_batch items) = _filter_batch items.
Proof.
  split.
  - assert (comprehension (_filter_batch items) = comprehension items) as Heq.
    { induction items as [|[k v] rest IH]; [done|].
      cbn [_filter_batch comprehension].
      destruct v as [[[bs|zs|qs]|x]|objs]; cbn; rewrite IH; try done.
      by rewrite <- list_fmap_compose. }
    cbn. rewrite Heq. clear Heq.
    induction items as [|[k v] rest (out & Hout & _)]; [by exists []|].
    cbn [comprehension]. rewrite Hout.
    destruct v as [[x|x]|objs]; cbn; by eexists.
  - induction items as [|[k v] rest IH]; [done|].
    cbn [_filter_batch]. rewrite IH.
    destruct (dtype_is_np_bool v) eqn:Hv; cbn [_filter_batch].
    + pose proof (dtype_after_filter v) as H. rewrite Hv in H. by rewrite H.
    + by rewrite Hv.
Qed.

(** *** [to_numpy] *)

(** What [to_numpy] is given: a tuple, a torch tensor (every tensor is an
    instance of [torch.autograd.Variable]), a numpy array, a list, or
    another object. *)
Inductive pyobject :=
  | PyTuple (items : list pyobject)
  | Tensor (x : numeric)
  | Array (x : numeric)
  | PyList (items : list pyobject)
  | Other (n : nat).

(** [to_numpy(data)]; [.to('cpu').detach().numpy()] gives the array of the
    tensor's content. *)
Fixpoint to_numpy (data : pyobject) : pyobject :=
  match data with
  | PyTuple items => PyTuple (to_numpy <$> items)
  | Tensor x => Array x
  | _ => data
  end.

(** No tensor is an item of the tuples of [data], at any depth. *)
Fixpoint tensor_free (data : pyobject) : bool :=
  match data with
  | PyTuple items => forallb tensor_free items
  | Tensor _ => false
  | _ => true
  end.

Section ObjectInd.

Variable P : pyobject -> Prop.
Hypothesis tuple_case : forall items, Forall P items -> P (PyTuple items).
Hypothesis tensor_case : forall x, P (Tensor x).
Hypothesis array_case : forall x, P (Array x).
Hypothesis list_case : forall items, P (PyList items).
Hypothesis other_case : forall n, P (Other n).

Fixpoint pyobject_tuple_ind (data : pyobject) : P data :=
  match data with
  | PyTuple items =>
      tuple_case items
        ((fix all (l : list pyobject) : Forall P l :=
            match l with
            | [] => @List.Forall_nil _ P
            | d :: rest => @List.Forall_cons _ P d rest (pyobject_tuple_ind d) (all rest)
            end) items)
  | Tensor x => tensor_case x
  | Array x => array_case x
  | PyList items => list_case items
  | Other n => other_case n
  end.

End ObjectInd.

Lemma to_numpy_tensor_free data : tensor_free (to_numpy data) = true.
Proof.
  induction data as [items IH| | | |] using pyobject_tuple_ind; try done.
  cbn. induction IH as [|d rest Hd _ IH]; [done|].
  cbn. by rewrite Hd, IH.
Qed.

Lemma to_numpy_fixed data : to_numpy data = data <-> tensor_free data = true.
Proof.
  induction data as [items IH| | | |] using pyobject_tuple_ind; try done.
  cbn. split.
  - intros [= Heq]. induction IH as [|d rest Hd _ IH]; [done|].
    cbn in Heq. injection Heq as Hd' Hrest. cbn.
    apply andb_true_intro. split; [by apply Hd|by apply IH].
  - intros Hfree. f_equal. induction IH as [|d rest Hd _ IH]; [done|].
    cbn in Hfree. apply andb_prop in Hfree as [Hfd Hfrest].
    cbn. f_equal; [by apply Hd|by apply IH].
Qed.

(** X20. [to_numpy] returns its argument unchanged exactly when no tensor
    is an item of its tuples; its result is always of that kind, so a second
    [to_numpy] changes nothing.  A list is returned as it is, also when it
    holds tensors. *)
Theorem to_numpy_idempotent data :
  (to_numpy data = data <-> tensor_free data = true) /\
  to_numpy (to_numpy data) = to_numpy data /\
  forall items, to_numpy (PyList items) = PyList items.
Proof.
  split; [apply to_numpy_fixed|]. split; [|done].
  apply to_numpy_fixed, to_numpy_tensor_free.
Qed.

End TensorFacts.

(** ** Initialisation and parameter count: [filter_activation_name],
    [initialise], [count_parameters] *)

Module Initialise.

(** An activation: one of the functions of [torch.nn.functional] that the
    source lists, or any other callable, of which only the [__name__]
    matters ([torch.tanh] is such a one: its name is ["tanh"], and it is not
    the function [F.tanh]). *)
Inductive activation :=
  | F_linear
  | F_conv1d
  | F_conv2d
  | F_conv3d
  | F_sigmoid
  | F_tanh
  | F_relu
  | F_leaky_relu
  | Callable (name : string).

#[local] Instance activation_eq_dec : EqDecision activation.
Proof. solve_decision. Defined.

(** [activation.__name__] *)
Definition __name__ (a : activation) : string :=
  match a with
  | F_linear => "linear"
  | F_conv1d => "conv1d"
  | F_conv2d => "conv2d"
  | F_conv3d => "conv3d"
  | F_sigmoid => "sigmoid"
  | F_tanh => "tanh"
  | F_relu => "relu"
  | F_leaky_relu => "leaky_relu"
  | Callable name => name
  end.

(** The list of the [in] test. *)
Definition listed : list activation :=
  [F_linear; F_conv1d; F_conv2d; F_conv3d; F_sigmoid; F_tanh; F_relu; F_leaky_relu].

(** [filter_activation_name(activation)] *)
Definition filter_activation_name (a : activation) : string :=
  if bool_decide (a ∈ listed) then __name__ a else "relu".

(** The initialiser [initialise] calls on the weight tensor, with the
    activation name it passes. *)
Inductive call :=
  | fanin
  | xavier (activation : string)
  | kaiming (activation : string)
  | orthogonal (activation : string).

(** [initialise(weight_tensor, function, activation)]: the call it makes,
    [None] when it makes none. *)
Definition initialise (function : string) (a : activation) : option call :=
  let name := filter_activation_name a in
  if decide (function = "fanin") then Some fanin
  else if decide (function = "xavier") then Some (xavier name)
  else if decide (function = "kaiming") then Some (kaiming name)
  else if decide (function = "orthogonal") then Some (orthogonal name)
  else None.

(** The activation name a call passes on to torch. *)
Definition passed (c : call) : option string :=
  match c with
  | fanin => None
  | xavier name | kaiming name | orthogonal name => Some name
  end.

Lemma filter_activation_name_listed a :
  filter_activation_name a ∈ __name__ <$> listed.
Proof.
  unfold filter_activation_name. case_bool_decide as Hin.
  - by apply list_elem_of_fmap_2.
  - apply (list_elem_of_fmap_2 __name__ listed F_relu). unfold listed.
    rewrite !elem_of_cons. tauto.
Qed.

(** X21. Whatever the function and the activation, the activation name
    that [initialise] passes to an initialiser is the name of one of the
    eight listed functions.  A callable that is not one of these function
    objects goes as ["relu"], whatever its own name, also when that name is
    a listed one. *)
Theorem initialise_passes_listed_name function a :
  (forall c name, initialise function a = Some c -> passed c = Some name ->
     name ∈ __name__ <$> listed) /\
  (forall name, filter_activation_name (Callable name) = "relu") /\
  (function ∉ ["fanin"; "xavier"; "kaiming"; "orthogonal"] ->
     initialise function a = None).
Proof.
  split; [|split].
  - intros c name Hc Hname. unfold initialise in Hc.
    repeat case_decide; simplify_eq; cbn in Hname; simplify_eq;
      apply filter_activation_name_listed.
  - done.
  - rewrite !not_elem_of_cons. intros (? & ? & ? & ? & _).
    unfold initialise. by rewrite !decide_False.
Qed.

(** *** [count_parameters] *)

(** A parameter tensor, as far as the count goes. *)
Record parameter := { numel : nat; requires_grad : bool }.

(** [count_parameters(model)], for the parameters [model.parameters()]
    yields. *)
Definition count_parameters (model : list parameter) : nat :=
  sum_list (numel <$> List.filter requires_grad model).

(** X22. [count_parameters] counts the entries of the parameters that
    require a gradient: it is at most the number of all entries, and equal
    to it exactly when every parameter left out is empty. *)
Theorem count_parameters_trainable model :
  count_parameters model <= sum_list (numel <$> model) /\
  (count_parameters model = sum_list (numel <$> model) <->
   Forall (fun p => requires_grad p = false -> numel p = 0) model).
Proof.
  unfold count_parameters.
  induction model as [|[n g] model [IHle IHeq]]; cbn.
  - split; [lia|]. split; [constructor|done].
  - rewrite Forall_cons. cbn. destruct g; cbn.
    + split; [lia|]. rewrite <- IHeq. split; [intros ?; split; [done|lia]|].
      intros [_ ?]. lia.
    + split; [lia|]. rewrite <- IHeq. split.
      * intros ?. split; [intros _|]; lia.
      * intros [Hn ?]. specialize (Hn eq_refl). lia.
Qed.

End Initialise.
